(** * caliban/util.py: configuration expansion, table reshaping and labels

    A shallow embedding of the pure helpers of [caliban.util]:
    [dict_product], [flipm], [invertm], [reorderm], the label sanitiser
    ([_is_key], [_truncate], [_clean_label], [key_label], [value_label]) and
    the two label builders ([partition], [script_args_to_labels],
    [sanitize_labels]).

    Conventions.
    - A Python [str] is a [string]; its characters are the code points below
      256, on which [str.lower] and [str.isalpha] are written out.
    - [Optional[str]] is [option string].
    - A dict that is only written and looked up is a [gmap]; Python's [==] on
      dicts ignores insertion order, which is [=] on [gmap].  The dict whose
      iteration order decides the order of the output ([dict_product]) is an
      association list in insertion order.
    - A [set] is a [gset].
    - An exception is a value of [exn], carried by [result]. *)

From Stdlib Require Import ZArith Ascii String.
From stdpp Require Import gmap strings list fin_maps.

Set Warnings "-clear-no-such-hyp".

Local Open Scope string_scope.
Local Open Scope list_scope.
Local Open Scope nat_scope.

(** ** Exceptions *)

Inductive exn : Type :=
  | ValueError   (* unpacking a sequence of the wrong length *)
  | IndexError.  (* subscript out of range *)

Inductive result (A : Type) : Type :=
  | Ok (a : A)
  | Raise (e : exn).
Arguments Ok {A} a.
Arguments Raise {A} e.

Definition bind {A B} (r : result A) (f : A → result B) : result B :=
  match r with
  | Ok a => f a
  | Raise e => Raise e
  end.

Notation "'let*' x ':=' r 'in' k" := (bind r (fun x => k))
  (at level 10, x name, r at level 100, k at level 200, only parsing).

(** ** Strings *)

Definition ord (c : ascii) : N := N_of_ascii c.

Definition in_range (lo hi : N) (c : ascii) : bool :=
  ((lo <=? ord c) && (ord c <=? hi))%N.

(** [c.lower()] for one character: the upper-case letters below 256 are
    [A-Z], [À-Ö] and [Ø-Þ]; each is 32 below its lower-case form. *)
Definition lower_char (c : ascii) : ascii :=
  if in_range 65 90 c || in_range 192 214 c || in_range 216 222 c
  then ascii_of_N (ord c + 32) else c.

Fixpoint lower (s : string) : string :=
  match s with
  | EmptyString => EmptyString
  | String c s' => String (lower_char c) (lower s')
  end.

(** [c.isalpha()] for one character: the letters below 256. *)
Definition isalpha_char (c : ascii) : bool :=
  in_range 65 90 c || in_range 97 122 c
  || N.eqb (ord c) 170 || N.eqb (ord c) 181 || N.eqb (ord c) 186
  || in_range 192 214 c || in_range 216 246 c || in_range 248 255 c.

Fixpoint all_chars (p : ascii → bool) (s : string) : bool :=
  match s with
  | EmptyString => true
  | String c s' => p c && all_chars p s'
  end.

(** [s.isalpha()]: false on the empty string. *)
Definition isalpha (s : string) : bool :=
  negb (String.eqb s "") && all_chars isalpha_char s.

Fixpoint mem_char (c : ascii) (chars : string) : bool :=
  match chars with
  | EmptyString => false
  | String d chars' => Ascii.eqb c d || mem_char c chars'
  end.

(** [s.lstrip(chars)] *)
Fixpoint lstrip (chars : string) (s : string) : string :=
  match s with
  | EmptyString => EmptyString
  | String c s' => if mem_char c chars then lstrip chars s' else s
  end.

(** The character class [a-z0-9_-]. *)
Definition label_char (c : ascii) : bool :=
  in_range 97 122 c || in_range 48 57 c
  || Ascii.eqb c "_" || Ascii.eqb c "-".

(** [re.sub(r'[^a-z0-9_-]', '', s)] *)
Fixpoint sub_unallowed (s : string) : string :=
  match s with
  | EmptyString => EmptyString
  | String c s' =>
      if label_char c then String c (sub_unallowed s') else sub_unallowed s'
  end.

(** [s[0:n]] *)
Fixpoint slice_to (n : nat) (s : string) : string :=
  match n, s with
  | S n', String c s' => String c (slice_to n' s')
  | _, _ => EmptyString
  end.

(** [s[0]] as a one-character string; the source reads it only behind a
    test that [s] is not empty. *)
Definition head_str (s : string) : string :=
  match s with
  | EmptyString => EmptyString
  | String c _ => String c EmptyString
  end.

(** ** The label sanitiser *)

Definition _is_key (k : option string) : bool :=
  match k with
  | None => false
  | Some k => (0 <? String.length k)%nat && String.eqb (head_str k) "-"
  end.

Definition _truncate (s : string) (max_length : nat) : string :=
  if (String.length s <=? max_length)%nat then s else slice_to max_length s.

Definition _clean_label (s : option string) (is_key : bool) : string :=
  match s with
  | None => ""
  | Some s =>
      let cleaned := sub_unallowed (lower (lstrip "-" s)) in
      let cleaned :=
        if is_key && negb (String.eqb cleaned "")
           && negb (isalpha (head_str cleaned))
        then "k" +:+ cleaned else cleaned in
      _truncate cleaned 63
  end.

Definition key_label (k : option string) : string := _clean_label k true.

Definition value_label (v : option string) : string := _clean_label v false.

(** ** From script arguments to labels *)

(** [seq[i:i + n]] for [0 <= i] *)
Definition window {A} (seq : list A) (i n : nat) : list A :=
  take n (drop i seq).

(** [range(0, stop, 1)] *)
Definition range (stop : Z) : list nat := List.seq 0 (Z.to_nat stop).

(** The generator [partition(seq, n)], as the list of the groups it yields:
    [range(0, max(1, len(seq) - n + 1), 1)] is computed over the integers. *)
Definition partition {A} (seq : list A) (n : nat) : list (list A) :=
  let stop := Z.max 1 (Z.of_nat (length seq) - Z.of_nat n + 1) in
  (λ i, window seq i n) <$> range stop.

(** The target list [k, v] of the [for] statement: a group that has not
    exactly two items raises [ValueError]. *)
Definition unpack_pair {A} (group : list A) : result (A * A) :=
  match group with
  | [k; v] => Ok (k, v)
  | _ => Raise ValueError
  end.

(** The closure [process_pair]; the dict [ret] it writes to is threaded. *)
Definition process_pair (ret : gmap string string) (k v : option string)
  : gmap string string :=
  if _is_key k then
    let clean_k := key_label k in
    if negb (String.eqb clean_k "")
    then <[clean_k := if _is_key v then "" else value_label v]> ret
    else ret
  else ret.

(** [for k, v in groups: process_pair(k, v)] *)
Fixpoint scan_pairs (ret : gmap string string) (groups : list (list string))
  : result (gmap string string) :=
  match groups with
  | [] => Ok ret
  | group :: groups' =>
      let* kv := unpack_pair group in
      scan_pairs (process_pair ret (Some kv.1) (Some kv.2)) groups'
  end.

(** [seq[-1]] *)
Definition last_item {A} (seq : list A) : result A :=
  match last seq with
  | Some x => Ok x
  | None => Raise IndexError
  end.

Definition script_args_to_labels (script_args : option (list string))
  : result (gmap string string) :=
  match script_args with
  | None => Ok ∅
  | Some script_args =>
      if (length script_args =? 0)%nat then Ok ∅
      else
        let* ret := scan_pairs ∅ (partition script_args 2) in
        if (1 <? length script_args)%nat
        then let* t := last_item script_args in Ok (process_pair ret (Some t) None)
        else Ok ret
  end.

(** Truth value of a string in a condition. *)
Definition truthy (s : string) : bool := negb (String.eqb s "").

(** The dict comprehension of [sanitize_labels], in the order of [pairs]. *)
Definition sanitize_labels (pairs : list (string * string))
  : gmap string string :=
  foldl (λ ret kv,
           if truthy (key_label (Some kv.1))
           then <[key_label (Some kv.1) := value_label (Some kv.2)]> ret
           else ret)
        ∅ pairs.

(** ** Cartesian product of a configuration *)

(** Python values as far as [dict_product] tells them apart: a list, or
    anything else. *)
#[warnings="-register-all"]
Inductive value (A : Type) : Type :=
  | Atom (a : A)
  | PyList (items : list (value A)).
Arguments Atom {A} a.
Arguments PyList {A} items.

Definition wrap_v {A} (v : value A) : list (value A) :=
  match v with
  | PyList items => items
  | _ => [v]
  end.

(** [itertools.product] of the lists [vs]: the rightmost list advances
    fastest; no list at all gives the one empty tuple. *)
Fixpoint product {X} (vs : list (list X)) : list (list X) :=
  match vs with
  | [] => [[]]
  | xs :: vs' => xs ≫= λ x, (x ::.) <$> product vs'
  end.

(** [dict(pairs)]: a later pair overwrites an earlier one with its key. *)
Definition dict {K V} `{Countable K} (pairs : list (K * V)) : gmap K V :=
  foldl (λ d kv, <[kv.1 := kv.2]> d) ∅ pairs.

(** [m] lists the items of the dict in insertion order; its keys are
    distinct.  The generator is given as the list of what it yields. *)
Definition dict_product {K A} `{Countable K} (m : list (K * value A))
  : list (gmap K (value A)) :=
  let cleaned := (λ kv, (kv.1, wrap_v kv.2)) <$> m in
  let ks := cleaned.*1 in
  let vs := cleaned.*2 in
  (λ x, dict (zip ks x)) <$> product vs.

(** ** Table shuffles *)

(** [d.setdefault(k, default)]: the value now bound to [k], and the dict. *)
Definition setdefault {K V} `{Countable K} (k : K) (default : V)
    (d : gmap K V) : V * gmap K V :=
  match d !! k with
  | Some v => (v, d)
  | None => (default, <[k := default]> d)
  end.

(** [ret.setdefault(k2, {})[k] = v]: the inner dict is the object stored in
    [ret], so the assignment is seen through [ret]. *)
Definition flipm_cell {K1 K2 V} `{Countable K1} `{Countable K2}
    (k : K1) (k2 : K2) (v : V) (ret : gmap K2 (gmap K1 V))
  : gmap K2 (gmap K1 V) :=
  let '(inner, ret) := setdefault k2 ∅ ret in
  <[k2 := <[k := v]> inner]> ret.

Definition flipm {K1 K2 V} `{Countable K1} `{Countable K2}
    (table : gmap K1 (gmap K2 V)) : gmap K2 (gmap K1 V) :=
  map_fold (λ k m ret, map_fold (λ k2 v ret, flipm_cell k k2 v ret) ret m)
           ∅ table.

(** [ret.setdefault(v, set()).add(k)] *)
Definition invertm_cell {K V} `{Countable K} `{Countable V}
    (k : K) (ret : gmap V (gset K)) (v : V) : gmap V (gset K) :=
  let '(acc, ret) := setdefault v ∅ ret in
  <[v := acc ∪ {[k]}]> ret.

Definition invertm {K V} `{Countable K} `{Countable V}
    (table : gmap K (list V)) : gmap V (gset K) :=
  map_fold (λ k vs ret, foldl (invertm_cell k) ret vs) ∅ table.

(** [seq[i]] for an integer [i]: a negative index counts from the end. *)
Definition getitem {A} (seq : list A) (i : Z) : result A :=
  let n := Z.of_nat (length seq) in
  let j := if (i <? 0)%Z then (n + i)%Z else i in
  if ((0 <=? j) && (j <? n))%Z then
    match seq !! Z.to_nat j with
    | Some x => Ok x
    | None => Raise IndexError
    end
  else Raise IndexError.

(** The body of the innermost loop of [reorderm].  Keys, inner keys and
    values trade places, so they share one type. *)
Definition reorderm_cell {A} `{Countable A} (order : Z * Z * Z)
    (k k2 v : A) (ret : gmap A (gmap A (gset A)))
  : result (gmap A (gmap A (gset A))) :=
  let fields := [k; k2; v] in
  let* f0 := getitem fields order.1.1 in
  let '(innerm, ret) := setdefault f0 ∅ ret in
  let* f1 := getitem fields order.1.2 in
  let '(acc, innerm) := setdefault f1 ∅ innerm in
  let* f2 := getitem fields order.2 in
  Ok (<[f0 := <[f1 := acc ∪ {[f2]}]> innerm]> ret).

Definition reorderm {A} `{Countable A} (table : gmap A (gmap A (list A)))
    (order : Z * Z * Z) : result (gmap A (gmap A (gset A))) :=
  map_fold
    (λ k m r,
       map_fold
         (λ k2 vs r,
            foldl (λ r v, let* ret := r in reorderm_cell order k k2 v ret) r vs)
         r m)
    (Ok ∅) table.


(** ** The sanitiser as the specification words it

    [sanitize] follows the six steps of the specification one by one; it is
    compared with [_clean_label] below. *)

Fixpoint strip_leading_dashes (s : string) : string :=
  match s with
  | String c s' => if Ascii.eqb c "-" then strip_leading_dashes s' else s
  | EmptyString => EmptyString
  end.

Definition is_letter (c : ascii) : bool :=
  in_range 97 122 c || in_range 65 90 c.

Definition prepend_k_unless_letter (s : string) : string :=
  match s with
  | EmptyString => EmptyString
  | String c _ => if is_letter c then s else String "k" s
  end.

Definition sanitize (raw : option string) (is_key : bool) : string :=
  match raw with
  | None => ""
  | Some raw =>
      let stripped := strip_leading_dashes raw in
      let lowered := lower stripped in
      let kept := sub_unallowed lowered in
      let prefixed := if is_key then prepend_k_unless_letter kept else kept in
      slice_to 63 prefixed
  end.

(** ** Well-formed labels *)

Definition starts_with_letter (s : string) : bool :=
  match s with
  | EmptyString => false
  | String c _ => in_range 97 122 c
  end.

Definition valid_value (s : string) : Prop :=
  String.length s ≤ 63 ∧ all_chars label_char s = true.

Definition valid_key (s : string) : Prop :=
  s ≠ "" ∧ valid_value s ∧ starts_with_letter s = true.

(** What [process_pair] stores under a key whose partner is [v]. *)
Definition recorded (v : option string) : string :=
  if _is_key v then "" else value_label v.

(** The calls [process_pair(k, v)] that [script_args_to_labels] makes on a
    list of at least two arguments, in order: one per group of the scan,
    then the one for the last argument, whose partner is [None]
    (Lemma [script_args_to_labels_calls]). *)
Definition calls (script_args : list string)
  : list (option string * option string) :=
  (λ i, (script_args !! i, script_args !! S i))
    <$> List.seq 0 (length script_args).

Definition run_calls (ret : gmap string string)
    (cs : list (option string * option string)) : gmap string string :=
  foldl (λ ret kv, process_pair ret kv.1 kv.2) ret cs.

Definition labels_ok (ret : gmap string string) : Prop :=
  map_Forall (λ k v, valid_key k ∧ valid_value v) ret.

(** ** Reading tables *)

(** [table[k][k2]], when both keys are there. *)
Definition cell {K1 K2 V} `{Countable K1} `{Countable K2}
    (table : gmap K1 (gmap K2 V)) (k : K1) (k2 : K2) : option V :=
  table !! k ≫= (.!! k2).

Definition no_empty_rows {K1 K2 V} `{Countable K1} `{Countable K2}
    (table : gmap K1 (gmap K2 V)) : Prop :=
  ∀ k m, table !! k = Some m → m ≠ ∅.

(** No inner key occurs under two different outer keys. *)
Definition inner_keys_disjoint {K1 K2 V} `{Countable K1} `{Countable K2}
    (table : gmap K1 (gmap K2 V)) : Prop :=
  ∀ k k' m m' k2,
    k ≠ k' → table !! k = Some m → table !! k' = Some m' →
    is_Some (m !! k2) → m' !! k2 = None.

(** [x in ret[a][b]], when both keys are there. *)
Definition leaf_elem {A} `{Countable A} (ret : gmap A (gmap A (gset A)))
    (a b x : A) : Prop :=
  ∃ innerm acc, ret !! a = Some innerm ∧ innerm !! b = Some acc ∧ x ∈ acc.

(** [order] is a permutation of [0, 1, 2]. *)
Definition is_order (order : Z * Z * Z) : Prop :=
  [order.1.1; order.1.2; order.2] ≡ₚ [0; 1; 2]%Z.

(** [(a, b, x)] is [(fields[order[0]], fields[order[1]], fields[order[2]])]
    for [fields = [k, k2, v]]. *)
Definition regrouped {A} (order : Z * Z * Z) (k k2 v a b x : A) : Prop :=
  getitem [k; k2; v] order.1.1 = Ok a
  ∧ getitem [k; k2; v] order.1.2 = Ok b
  ∧ getitem [k; k2; v] order.2 = Ok x.

(** An index that a list of three items accepts. *)
Definition valid_index (i : Z) : Prop := (-3 ≤ i < 3)%Z.

(** ** Dictionaries: [merge], [dict_by] *)

(** [ret = l.copy(); ret.update(r)]: the items of [r] are written over a copy
    of [l]. *)
Definition merge {K V} `{Countable K} (l r : gmap K V) : gmap K V :=
  let ret := l in
  map_fold (λ k v ret, <[k := v]> ret) ret r.

(** The dict comprehension [{k: f(k) for k in keys}]. *)
Definition dict_by {V} (keys : gset string) (f : string → V)
  : gmap string V :=
  set_fold (λ k ret, <[k := f k]> ret) ∅ keys.

(** ** [expand_args] *)

(** [items] lists the items of the dict in insertion order; a value is a
    string or [None]. *)
Definition expand_args (items : list (string * option string))
  : list string :=
  let pairs :=
    (λ kv, match kv.2 with Some v => [kv.1; v] | None => [kv.1] end)
      <$> items in
  concat pairs.

(** ** Chunks *)

(** [items[i::step]] for [0 <= i] and [1 <= step]: walk the list, keep an
    item when the countdown [i] is at zero and restart it at [step - 1]. *)
Fixpoint slice_step {A} (i step : nat) (items : list A) : list A :=
  match items with
  | [] => []
  | x :: items' =>
      match i with
      | O => x :: slice_step (step - 1) step items'
      | S i' => slice_step i' step items'
      end
  end.

(** [range(n_groups)] is empty for [n_groups <= 0], so that no slice is taken
    with a step that is not positive. *)
Definition n_chunks {A} (items : list A) (n_groups : Z) : list (list A) :=
  (λ i, slice_step i (Z.to_nat n_groups) items) <$> range n_groups.

(** [divmod(len(items), limit)] raises [ZeroDivisionError] on [limit = 0],
    here [None]; the quotient is rounded down, as [Z.div] is. *)
Definition chunks_below_limit {A} (items : list A) (limit : Z)
  : option (list (list A)) :=
  if (limit =? 0)%Z then None
  else
    let quot := (Z.of_nat (length items) / limit)%Z in
    Some (n_chunks items (quot + 1)).

(** ** More strings *)

(** [s.split(sep)] for a separator of one character. *)
Fixpoint split (sep : ascii) (s : string) : list string :=
  match s with
  | EmptyString => [EmptyString]
  | String c s' =>
      if Ascii.eqb c sep then EmptyString :: split sep s'
      else
        match split sep s' with
        | item :: items => String c item :: items
        | [] => [String c EmptyString]
        end
  end.

(** [sep.join(items)] *)
Fixpoint join (sep : string) (items : list string) : string :=
  match items with
  | [] => EmptyString
  | [item] => item
  | item :: items' => item +:+ sep +:+ join sep items'
  end.

(** [c.isspace()] for one character: the white space below 256. *)
Definition isspace_char (c : ascii) : bool :=
  in_range 9 13 c || in_range 28 32 c
  || N.eqb (ord c) 133 || N.eqb (ord c) 160.

Fixpoint lstrip_space (s : string) : string :=
  match s with
  | EmptyString => EmptyString
  | String c s' => if isspace_char c then lstrip_space s' else s
  end.

Fixpoint rstrip_space (s : string) : string :=
  match s with
  | EmptyString => EmptyString
  | String c s' =>
      match rstrip_space s' with
      | EmptyString => if isspace_char c then EmptyString else String c EmptyString
      | rest => String c rest
      end
  end.

(** [s.strip()] *)
Definition strip (s : string) : string := rstrip_space (lstrip_space s).

(** [s.replace(old, new)] for a non-empty [old]: occurrences are taken from
    the left and do not overlap; [skip] counts the characters of an
    occurrence that are still to be passed over. *)
Fixpoint replace_from (old new : string) (skip : nat) (s : string) : string :=
  match s with
  | EmptyString => EmptyString
  | String c s' =>
      match skip with
      | S skip' => replace_from old new skip' s'
      | O =>
          if String.prefix old s
          then new +:+ replace_from old new (String.length old - 1) s'
          else String c (replace_from old new 0 s')
      end
  end.

Definition replace (old new : string) (s : string) : string :=
  replace_from old new 0 s.

(** ** [parse_kv_pair] *)

(** [argparse.ArgumentTypeError] is [None]. *)
Definition parse_kv_pair (s : string) : option (string * string) :=
  let items := split "=" s in
  let k := strip (nth 0 items EmptyString) in
  if (length items <=? 1)%nat then None
  else
    let v := join "=" (drop 1 items) in
    Some (k, v).

(** ** Paths and modules *)

Record Package : Type := { package_path : string; main_module : string }.

Definition path_to_module (path_str : string) : string :=
  replace "/" "." (replace ".py" "" path_str).

Definition module_to_path (module_name : string) : string :=
  replace "." "/" (path_to_module module_name) +:+ ".py".

Definition generate_package (path : string) : Package :=
  let module := path_to_module path in
  let items := split "." module in
  let root := if (length items =? 1)%nat then "." else nth 0 items EmptyString in
  {| package_path := root; main_module := module |}.

(** ** Predicates used to state the properties *)

(** [c] does not occur in [s]. *)
Definition lacks (c : ascii) (s : string) : Prop :=
  all_chars (λ d, negb (Ascii.eqb d c)) s = true.

Definition first_char (s : string) : option ascii :=
  match s with
  | EmptyString => None
  | String c _ => Some c
  end.

Fixpoint last_char (s : string) : option ascii :=
  match s with
  | EmptyString => None
  | String c s' =>
      match last_char s' with
      | Some d => Some d
      | None => Some c
      end
  end.

(** * Proofs *)

(** ** Strings *)

Lemma string_eqb_empty (s : string) :
  String.eqb s "" = match s with EmptyString => true | String _ _ => false end.
Proof. by destruct s. Qed.

Lemma length_slice_to n s : String.length (slice_to n s) = n `min` String.length s.
Proof.
  revert s; induction n as [|n IH]; intros [|c s]; simpl; try done.
  by rewrite IH.
Qed.

Lemma slice_to_all n s : String.length s ≤ n → slice_to n s = s.
Proof.
  revert s; induction n as [|n IH]; intros [|c s]; simpl; try done; try lia.
  intros Hle. rewrite IH; [done | lia].
Qed.

Lemma all_chars_slice_to p n s :
  all_chars p s = true → all_chars p (slice_to n s) = true.
Proof.
  revert s; induction n as [|n IH]; intros [|c s]; simpl; try done.
  rewrite !andb_true_iff. intros [-> ?]; auto.
Qed.

Lemma all_chars_sub_unallowed s : all_chars label_char (sub_unallowed s) = true.
Proof.
  induction s as [|c s IH]; simpl; [done|].
  destruct (label_char c) eqn:Hc; simpl; [by rewrite Hc | done].
Qed.

Lemma lstrip_dash s : lstrip "-" s = strip_leading_dashes s.
Proof.
  induction s as [|c s IH]; simpl; [done|].
  rewrite orb_false_r. by rewrite IH.
Qed.

Lemma _truncate_slice s n : _truncate s n = slice_to n s.
Proof.
  unfold _truncate. destruct (Nat.leb_spec (String.length s) n); [|done].
  by rewrite slice_to_all.
Qed.


(** Among the characters that survive the filter, [isalpha] holds of the
    lower-case ASCII letters only. *)
Lemma label_char_isalpha c :
  label_char c = true → isalpha_char c = in_range 97 122 c.
Proof.
  destruct c as [[] [] [] [] [] [] [] []]; vm_compute; congruence.
Qed.

Lemma label_char_is_letter c :
  label_char c = true → is_letter c = in_range 97 122 c.
Proof.
  destruct c as [[] [] [] [] [] [] [] []]; vm_compute; congruence.
Qed.

Lemma isalpha_head c s : isalpha (head_str (String c s)) = isalpha_char c.
Proof. unfold isalpha; simpl. by rewrite andb_true_r. Qed.

(** ** The sanitiser *)

(** [_clean_label] on a string, with the test of the source rewritten on
    the first character that survived the filter. *)
Lemma _clean_label_steps s is_key :
  _clean_label (Some s) is_key =
  let kept := sub_unallowed (lower (lstrip "-" s)) in
  slice_to 63 (if is_key then prepend_k_unless_letter kept else kept).
Proof.
  unfold _clean_label. rewrite _truncate_slice. cbv zeta. f_equal.
  pose proof (all_chars_sub_unallowed (lower (lstrip "-" s))) as Hall.
  destruct (sub_unallowed (lower (lstrip "-" s))) as [|c r];
    rewrite string_eqb_empty; cbn [prepend_k_unless_letter negb].
  { rewrite andb_false_r. by destruct is_key. }
  simpl in Hall. apply andb_true_iff in Hall as [Hc _].
  rewrite andb_true_r, isalpha_head, (label_char_isalpha c Hc),
    (label_char_is_letter c Hc).
  by destruct is_key, (in_range 97 122 c).
Qed.

Lemma valid_value_empty : valid_value "".
Proof. split; [simpl; lia | done]. Qed.

Lemma value_label_valid v : valid_value (value_label v).
Proof.
  destruct v as [s|]; [|apply valid_value_empty].
  unfold value_label. rewrite _clean_label_steps. cbv zeta. split.
  - rewrite length_slice_to. lia.
  - apply all_chars_slice_to, all_chars_sub_unallowed.
Qed.

Lemma recorded_valid v : valid_value (recorded v).
Proof.
  unfold recorded. destruct (_is_key v); [apply valid_value_empty | apply value_label_valid].
Qed.

Lemma prepend_k_valid s :
  all_chars label_char s = true →
  all_chars label_char (prepend_k_unless_letter s) = true
  ∧ (s ≠ "" → starts_with_letter (prepend_k_unless_letter s) = true).
Proof.
  destruct s as [|c r]; [done|]. intros Hall. cbn [prepend_k_unless_letter].
  pose proof Hall as Hc. simpl in Hc. apply andb_true_iff in Hc as [Hc _].
  rewrite (label_char_is_letter c Hc).
  destruct (in_range 97 122 c) eqn:Hl; [by rewrite <- Hl at 2 |].
  split; [|done]. by change (all_chars label_char (String c r) = true).
Qed.

Lemma starts_with_letter_slice_to n s :
  starts_with_letter s = true → starts_with_letter (slice_to (S n) s) = true.
Proof. by destruct s. Qed.

Lemma key_label_valid k : key_label k ≠ "" → valid_key (key_label k).
Proof.
  destruct k as [s|]; [|done].
  unfold key_label. rewrite _clean_label_steps. cbv zeta.
  set (kept := sub_unallowed (lower (lstrip "-" s))).
  intros Hne. split; [done|].
  destruct (prepend_k_valid kept) as [Hall Hfirst];
    [apply all_chars_sub_unallowed|].
  repeat split.
  - rewrite length_slice_to. lia.
  - by apply all_chars_slice_to.
  - apply starts_with_letter_slice_to, Hfirst.
    intros Hk. apply Hne. by rewrite Hk.
Qed.

(** ** The scan of the arguments *)

Lemma window_two {A} (l : list A) i :
  S i < length l →
  ∃ a b, l !! i = Some a ∧ l !! S i = Some b ∧ window l i 2 = [a; b].
Proof.
  intros Hlt.
  destruct (lookup_lt_is_Some_2 l i) as [a Ha]; [lia|].
  destruct (lookup_lt_is_Some_2 l (S i)) as [b Hb]; [lia|].
  exists a, b. repeat split; try done.
  unfold window. rewrite (drop_S l a i Ha), (drop_S l b (S i) Hb). done.
Qed.

Lemma partition_two {A} (l : list A) :
  2 ≤ length l →
  partition l 2 = (λ i, window l i 2) <$> List.seq 0 (length l - 1).
Proof.
  intros Hlen. unfold partition, range. do 2 f_equal. lia.
Qed.

Lemma partition_singleton {A} (x : A) : partition [x] 2 = [[x]].
Proof. reflexivity. Qed.

Lemma scan_pairs_windows (args : list string) js ret :
  (∀ j, j ∈ js → S j < length args) →
  scan_pairs ret ((λ i, window args i 2) <$> js) =
  Ok (run_calls ret ((λ i, (args !! i, args !! S i)) <$> js)).
Proof.
  revert ret. induction js as [|j js IH]; intros ret Hjs; [done|].
  destruct (window_two args j) as (a & b & Ha & Hb & Hw).
  { apply Hjs. left. }
  cbn [fmap list_fmap scan_pairs run_calls foldl]. rewrite Hw. cbn [unpack_pair bind fst snd].
  rewrite Ha, Hb. apply IH. intros j' Hj'. apply Hjs. by right.
Qed.

Lemma calls_split (args : list string) :
  1 ≤ length args →
  calls args =
  ((λ i, (args !! i, args !! S i)) <$> List.seq 0 (length args - 1))
    ++ [(last args, None)].
Proof.
  intros Hlen. unfold calls. rewrite last_lookup.
  remember (length args) as n eqn:Hn. destruct n as [|n]; [lia|].
  replace (S n - 1) with n by lia.
  rewrite seq_S, fmap_app. cbn [fmap list_fmap Nat.add Nat.pred].
  by rewrite (lookup_ge_None_2 args (S n)) by lia.
Qed.

Lemma script_args_to_labels_calls (args : list string) :
  2 ≤ length args →
  script_args_to_labels (Some args) = Ok (run_calls ∅ (calls args)).
Proof.
  intros Hlen. unfold script_args_to_labels.
  destruct (Nat.eqb_spec (length args) 0) as [|_]; [lia|].
  rewrite partition_two, scan_pairs_windows
    by done || (intros j Hj; apply elem_of_seq in Hj; lia).
  cbn [bind]. destruct (Nat.ltb_spec 1 (length args)) as [_|]; [|lia].
  rewrite calls_split by lia. unfold run_calls at 2. rewrite foldl_app.
  unfold last_item. destruct (last args) as [t|] eqn:Ht; [done|].
  apply last_None in Ht. subst args. simpl in Hlen. lia.
Qed.

Lemma calls_lookup (args : list string) i :
  i < length args → calls args !! i = Some (args !! i, args !! S i).
Proof.
  intros Hlt. unfold calls. rewrite list_lookup_fmap, lookup_seq_lt by done. done.
Qed.

Lemma calls_lookup_inv (args : list string) i k v :
  calls args !! i = Some (k, v) →
  i < length args ∧ k = args !! i ∧ v = args !! S i.
Proof.
  unfold calls. rewrite list_lookup_fmap. intros Hc.
  destruct (List.seq 0 (length args) !! i) as [j|] eqn:Hj; [|done].
  apply lookup_seq in Hj as [-> Hlt]. simpl in Hc. by simplify_eq.
Qed.

(** ** Writes of [process_pair] *)

Lemma process_pair_write ret k v :
  _is_key k = true → key_label k ≠ "" →
  process_pair ret k v = <[key_label k := recorded v]> ret.
Proof.
  intros Hk Hne. unfold process_pair, recorded. rewrite Hk.
  destruct (String.eqb_spec (key_label k) ""); done.
Qed.

Lemma process_pair_skip ret k v :
  _is_key k = false ∨ key_label k = "" → process_pair ret k v = ret.
Proof.
  unfold process_pair. intros [-> | ->]; [done|]. by destruct (_is_key k).
Qed.

Lemma process_pair_cases ret k v :
  (_is_key k = true ∧ key_label k ≠ ""
   ∧ process_pair ret k v = <[key_label k := recorded v]> ret)
  ∨ ((_is_key k = false ∨ key_label k = "") ∧ process_pair ret k v = ret).
Proof.
  destruct (_is_key k) eqn:Hk.
  - destruct (decide (key_label k = "")) as [He|Hne].
    + right. split; [by right|]. apply process_pair_skip. by right.
    + left. repeat split; try done. by apply process_pair_write.
  - right. split; [by left|]. apply process_pair_skip. by left.
Qed.

Lemma process_pair_other ret k v key :
  (_is_key k = true → key_label k ≠ key) →
  process_pair ret k v !! key = ret !! key.
Proof.
  intros Hne. destruct (process_pair_cases ret k v) as [(Hk & _ & ->)|[_ ->]];
    [|done].
  apply lookup_insert_ne. auto.
Qed.

Lemma run_calls_other ret cs key :
  (∀ k v, (k, v) ∈ cs → _is_key k = true → key_label k ≠ key) →
  run_calls ret cs !! key = ret !! key.
Proof.
  revert ret. induction cs as [|[k v] cs IH]; intros ret Hcs; [done|].
  cbn [run_calls foldl fst snd]. fold (run_calls (process_pair ret k v) cs).
  rewrite IH by (intros k' v' Hin; apply (Hcs k' v'); by right).
  apply process_pair_other, (Hcs k v). left.
Qed.

(** Last write wins: the call at position [i] decides the label when no
    later call writes the same key. *)
Lemma run_calls_last ret cs i k v :
  cs !! i = Some (k, v) →
  _is_key k = true → key_label k ≠ "" →
  (∀ j k' v', i < j → cs !! j = Some (k', v') →
              _is_key k' = true → key_label k' ≠ key_label k) →
  run_calls ret cs !! key_label k = Some (recorded v).
Proof.
  intros Hi Hk Hne Hlater.
  rewrite <- (take_drop_middle cs i (k, v) Hi).
  unfold run_calls. rewrite foldl_app. cbn [foldl fst snd].
  fold (run_calls ret (take i cs)).
  fold (run_calls (process_pair (run_calls ret (take i cs)) k v) (drop (S i) cs)).
  rewrite run_calls_other.
  - rewrite process_pair_write by done. apply lookup_insert_eq.
  - intros k' v' Hin. apply list_elem_of_lookup in Hin as [j Hj].
    rewrite lookup_drop in Hj. apply (Hlater (S i + j) k' v'); [lia | done].
Qed.

Lemma script_args_to_labels_last (args : list string) i k :
  2 ≤ length args →
  args !! i = Some k →
  _is_key (Some k) = true → key_label (Some k) ≠ "" →
  (∀ j k', i < j → args !! j = Some k' →
           _is_key (Some k') = true → key_label (Some k') ≠ key_label (Some k)) →
  ∃ ret, script_args_to_labels (Some args) = Ok ret
         ∧ ret !! key_label (Some k) = Some (recorded (args !! S i)).
Proof.
  intros Hlen Hi Hk Hne Hlater. eexists. split.
  { by apply script_args_to_labels_calls. }
  apply (run_calls_last _ _ i); try done.
  - rewrite calls_lookup by (by eapply lookup_lt_Some). by rewrite Hi.
  - intros j k' v' Hij Hj Hk'. apply calls_lookup_inv in Hj as (_ & -> & _).
    destruct (args !! j) as [t|] eqn:Ht; [|done]. by apply (Hlater j).
Qed.

(** ** Well-formedness of the labels *)

Lemma process_pair_ok ret k v : labels_ok ret → labels_ok (process_pair ret k v).
Proof.
  intros Hok.
  destruct (process_pair_cases ret k v) as [(_ & Hne & ->)|[_ ->]]; [|done].
  apply map_Forall_insert_2; [|done].
  split; [by apply key_label_valid | apply recorded_valid].
Qed.

Lemma scan_pairs_ok groups ret ret' :
  labels_ok ret → scan_pairs ret groups = Ok ret' → labels_ok ret'.
Proof.
  revert ret. induction groups as [|g gs IH]; intros ret Hok; simpl.
  { by intros [= <-]. }
  destruct (unpack_pair g) as [[k v]|e]; simpl; [|done].
  apply IH. by apply process_pair_ok.
Qed.

Lemma script_args_to_labels_ok script_args ret :
  script_args_to_labels script_args = Ok ret → labels_ok ret.
Proof.
  unfold script_args_to_labels.
  destruct script_args as [args|]; [|intros [= <-]; apply map_Forall_empty].
  destruct (length args =? 0); [intros [= <-]; apply map_Forall_empty|].
  destruct (scan_pairs ∅ (partition args 2)) as [r|e] eqn:Hscan; simpl; [|done].
  apply scan_pairs_ok in Hscan; [|apply map_Forall_empty].
  destruct (1 <? length args); [|by intros [= <-]].
  destruct (last_item args) as [t|e]; simpl; [|done].
  intros [= <-]. by apply process_pair_ok.
Qed.

Lemma sanitize_labels_snoc pairs k v :
  sanitize_labels (pairs ++ [(k, v)]) =
  if truthy (key_label (Some k))
  then <[key_label (Some k) := value_label (Some v)]> (sanitize_labels pairs)
  else sanitize_labels pairs.
Proof. unfold sanitize_labels. by rewrite foldl_app. Qed.

Lemma truthy_true s : truthy s = true ↔ s ≠ "".
Proof. unfold truthy. destruct (String.eqb_spec s ""); naive_solver. Qed.

Lemma sanitize_labels_ok pairs : labels_ok (sanitize_labels pairs).
Proof.
  induction pairs as [|[k v] pairs IH] using rev_ind; [apply map_Forall_empty|].
  rewrite sanitize_labels_snoc.
  destruct (truthy (key_label (Some k))) eqn:Ht; [|done].
  apply map_Forall_insert_2; [|done].
  split; [by apply key_label_valid, truthy_true | apply value_label_valid].
Qed.

Lemma sanitize_labels_drop pre k v post :
  key_label (Some k) = "" →
  sanitize_labels (pre ++ (k, v) :: post) = sanitize_labels (pre ++ post).
Proof.
  intros Hk. unfold sanitize_labels. rewrite !foldl_app. cbn [foldl fst snd].
  by rewrite Hk.
Qed.

Lemma sanitize_labels_last pre k v post :
  key_label (Some k) ≠ "" →
  (∀ k' v', (k', v') ∈ post → key_label (Some k') ≠ key_label (Some k)) →
  sanitize_labels (pre ++ (k, v) :: post) !! key_label (Some k)
  = Some (value_label (Some v)).
Proof.
  intros Hne. induction post as [|[k' v'] post IH] using rev_ind; intros Hpost.
  - rewrite sanitize_labels_snoc.
    rewrite (proj2 (truthy_true _) Hne). apply lookup_insert_eq.
  - rewrite app_comm_cons, app_assoc, sanitize_labels_snoc.
    assert (sanitize_labels (pre ++ (k, v) :: post) !! key_label (Some k)
            = Some (value_label (Some v))) as Hlook.
    { apply IH. intros k2 v2 Hin. apply (Hpost k2 v2), elem_of_app. by left. }
    destruct (truthy (key_label (Some k'))); [|done].
    rewrite lookup_insert_ne; [done|].
    apply (Hpost k' v'), elem_of_app. right. by left.
Qed.

Lemma script_args_to_labels_returns (args : list string) :
  length args ≠ 1 → ∃ ret, script_args_to_labels (Some args) = Ok ret.
Proof.
  intros Hlen. destruct args as [|a [|b args]]; [by exists ∅ | done |].
  eexists. apply script_args_to_labels_calls. simpl. lia.
Qed.

(** ** The claims on the argument parser and the sanitiser *)

(** C1 (the code departs from it).  On a sequence of one token
    [script_args_to_labels] does not return: the only group that
    [partition] yields has one item, and unpacking it into [k, v] raises
    [ValueError], whether or not the token is a flag. *)
Theorem script_args_to_labels_one_token_raises :
  script_args_to_labels (Some ["--verbose"]) = Raise ValueError
  ∧ script_args_to_labels (Some ["verbose"]) = Raise ValueError
  ∧ ∀ t : string, script_args_to_labels (Some [t]) = Raise ValueError.
Proof. repeat split. Qed.

(** C2 as the claim words it fails: the value paired with [--foo] is
    recorded sanitised ([bar]), not as it was given ([Bar]). *)
Lemma window_value_not_stored_as_is :
  _is_key (Some "--foo") = true
  ∧ _is_key (Some "Bar") = false
  ∧ ∃ ret, script_args_to_labels (Some ["--foo"; "Bar"]) = Ok ret
           ∧ ret !! key_label (Some "--foo") = Some "bar"
           ∧ ret !! key_label (Some "--foo") ≠ Some "Bar".
Proof.
  do 2 (split; [reflexivity|]). eexists. split; [reflexivity|].
  split; [by vm_compute | by vm_compute].
Qed.

(** C2, amended.  For every group [(k, v)] of the scan in which [k] is
    classified as a key and sanitises to a non-empty key, the value recorded
    under that key is [value_label v], the sanitised form of [v], when [v]
    is not itself classified as a key, and the empty string when it is; the
    recorded value is the one returned unless a later flag token sanitises
    to the same key. *)
Theorem window_value_recorded (args : list string) (i : nat) (k v : string) :
  args !! i = Some k →
  args !! S i = Some v →
  _is_key (Some k) = true →
  key_label (Some k) ≠ "" →
  (∀ j k', i < j → args !! j = Some k' →
           _is_key (Some k') = true → key_label (Some k') ≠ key_label (Some k)) →
  ∃ ret, script_args_to_labels (Some args) = Ok ret
         ∧ ret !! key_label (Some k)
           = Some (if _is_key (Some v) then "" else value_label (Some v)).
Proof.
  intros Hk Hv Hkey Hne Hlater.
  destruct (script_args_to_labels_last args i k) as (ret & Hret & Hlook);
    try done.
  { apply lookup_lt_Some in Hv. lia. }
  exists ret. split; [done|]. by rewrite Hlook, Hv.
Qed.

Lemma window_value_recorded_witness :
  ∃ ret, script_args_to_labels (Some ["--foo"; "Bar"]) = Ok ret
         ∧ ret !! key_label (Some "--foo")
           = Some (if _is_key (Some "Bar") then "" else value_label (Some "Bar")).
Proof.
  apply (window_value_recorded ["--foo"; "Bar"] 0 "--foo" "Bar").
  - reflexivity.
  - reflexivity.
  - reflexivity.
  - vm_compute. discriminate.
  - intros j k' Hj Hl Hk. destruct j as [|[|j]]; [lia | | discriminate].
    injection Hl as <-. vm_compute in Hk. discriminate.
Defined.

(** C3.  [script_args_to_labels(["--foo", "bar", "--flag"])] is
    [{"foo": "bar", "flag": ""}]: the scan of the groups alone gives
    [{"foo": "bar"}], and the step for the last argument adds [flag];
    on the empty list (and on [None]) the result is the empty dict. *)
Theorem script_args_to_labels_examples :
  script_args_to_labels (Some ["--foo"; "bar"; "--flag"])
    = Ok {[ "foo" := "bar"; "flag" := "" ]}
  ∧ scan_pairs ∅ (partition ["--foo"; "bar"; "--flag"] 2)
    = Ok {[ "foo" := "bar" ]}
  ∧ process_pair {[ "foo" := "bar" ]} (Some "--flag") None
    = {[ "foo" := "bar"; "flag" := "" ]}
  ∧ script_args_to_labels (Some []) = Ok ∅
  ∧ script_args_to_labels None = Ok ∅.
Proof. repeat split; by vm_compute. Qed.

(** C4.  [_clean_label] computes the six steps of the specification
    ([sanitize]): the empty string on [None]; otherwise strip the leading
    dashes, lower-case, delete what is outside [a-z0-9_-], prepend [k] to a
    key that is not empty and does not start with a letter, keep the first
    63 characters.  The two examples hold, the value path adds no prefix,
    and more than 63 cleaned characters are cut to exactly 63. *)
Theorem clean_label_sanitize :
  (∀ s is_key, _clean_label s is_key = sanitize s is_key)
  ∧ _clean_label (Some "--My.Key!!") true = "mykey"
  ∧ _clean_label (Some "123abc") true = "k123abc"
  ∧ (∀ s, _clean_label (Some s) false
          = slice_to 63 (sub_unallowed (lower (lstrip "-" s))))
  ∧ _clean_label (Some "123abc") false = "123abc"
  ∧ (∀ s is_key, String.length (_clean_label s is_key) ≤ 63)
  ∧ (∀ s is_key,
       63 < String.length (sub_unallowed (lower (lstrip "-" s))) →
       String.length (_clean_label (Some s) is_key) = 63).
Proof.
  split; [|split; [done|split; [done|split; [|split; [done|split]]]]].
  - intros [s|] is_key; [|done].
    rewrite _clean_label_steps. unfold sanitize. by rewrite lstrip_dash.
  - intros s. by rewrite _clean_label_steps.
  - intros [s|] is_key; [|simpl; lia].
    rewrite _clean_label_steps. cbv zeta. rewrite length_slice_to. lia.
  - intros s is_key Hlong. rewrite _clean_label_steps. cbv zeta.
    rewrite length_slice_to.
    destruct is_key; [|lia].
    destruct (sub_unallowed (lower (lstrip "-" s))) as [|c r]; [simpl in Hlong; lia|].
    cbn [prepend_k_unless_letter].
    destruct (is_letter c); cbn [String.length] in *; lia.
Qed.

Lemma clean_label_sanitize_witness :
  String.length
    (_clean_label
       (Some "--Learning.Rate=0123456789-0123456789-0123456789-0123456789-0123456789-0123456789")
       true) = 63.
Proof.
  apply (proj2 (proj2 (proj2 (proj2 (proj2 (proj2 clean_label_sanitize)))))).
  vm_compute. lia.
Defined.

(** C5.  Whatever [script_args_to_labels] and [sanitize_labels] return,
    every key is a non-empty string of at most 63 characters of
    [a-z0-9_-] that starts with a letter, and every value is a string of
    at most 63 characters of [a-z0-9_-]; [script_args_to_labels] does
    return on every list that has not exactly one argument; a pair whose
    key sanitises to the empty string leaves no trace. *)
Theorem labels_well_formed :
  (∀ script_args ret,
     script_args_to_labels script_args = Ok ret →
     ∀ k v, ret !! k = Some v → valid_key k ∧ valid_value v)
  ∧ (∀ args, length args ≠ 1 →
             ∃ ret, script_args_to_labels (Some args) = Ok ret)
  ∧ (∀ pairs k v,
       sanitize_labels pairs !! k = Some v → valid_key k ∧ valid_value v)
  ∧ (∀ pre k v post,
       key_label (Some k) = "" →
       sanitize_labels (pre ++ (k, v) :: post) = sanitize_labels (pre ++ post))
  ∧ (∀ ret k v, key_label k = "" → process_pair ret k v = ret)
  ∧ sanitize_labels [("---", "x"); ("a", "b")] = {[ "a" := "b" ]}.
Proof.
  split; [|split; [|split; [|split; [|split]]]].
  - intros script_args ret Hret k v Hkv.
    exact (script_args_to_labels_ok _ _ Hret k v Hkv).
  - apply script_args_to_labels_returns.
  - intros pairs k v Hkv. exact (sanitize_labels_ok pairs k v Hkv).
  - intros pre k v post Hk. by apply sanitize_labels_drop.
  - intros ret k v Hk. apply process_pair_skip. by right.
  - by vm_compute.
Qed.

Lemma labels_well_formed_witness :
  valid_key "foo" ∧ valid_value "bar".
Proof.
  apply (proj1 labels_well_formed (Some ["--foo"; "bar"; "--flag"])
               {[ "foo" := "bar"; "flag" := "" ]}).
  - by vm_compute.
  - by vm_compute.
Defined.

(** C10.  A later write replaces an earlier one under the same key.  In
    [sanitize_labels] the last pair whose key sanitises to a given non-empty
    key decides the value, however many earlier pairs collide with it.  In
    [script_args_to_labels] the last flag token that sanitises to a given
    key decides it, and a last argument that is a flag binds its key to the
    empty string, also over a value recorded by an earlier group.  A dict
    binds a key once: the result is read by lookup. *)
Theorem labels_last_write_wins :
  (∀ pre k v post,
     key_label (Some k) ≠ "" →
     (∀ k' v', (k', v') ∈ post → key_label (Some k') ≠ key_label (Some k)) →
     sanitize_labels (pre ++ (k, v) :: post) !! key_label (Some k)
     = Some (value_label (Some v)))
  ∧ (∀ (args : list string) i k,
       2 ≤ length args →
       args !! i = Some k →
       _is_key (Some k) = true → key_label (Some k) ≠ "" →
       (∀ j k', i < j → args !! j = Some k' → _is_key (Some k') = true →
                key_label (Some k') ≠ key_label (Some k)) →
       ∃ ret, script_args_to_labels (Some args) = Ok ret
              ∧ ret !! key_label (Some k) = Some (recorded (args !! S i)))
  ∧ (∀ (args : list string) t,
       2 ≤ length args →
       last args = Some t →
       _is_key (Some t) = true → key_label (Some t) ≠ "" →
       ∃ ret, script_args_to_labels (Some args) = Ok ret
              ∧ ret !! key_label (Some t) = Some "")
  ∧ sanitize_labels [("Foo", "1"); ("--foo", "2")] = {[ "foo" := "2" ]}
  ∧ script_args_to_labels (Some ["--foo"; "bar"; "--FOO"])
    = Ok {[ "foo" := "" ]}
  ∧ script_args_to_labels (Some ["--a"; "1"; "--A"; "2"])
    = Ok {[ "a" := "2" ]}.
Proof.
  split; [|split; [|split; [|split; [|split]]]].
  4-6: by vm_compute.
  - apply sanitize_labels_last.
  - apply script_args_to_labels_last.
  - intros args t Hlen Hlast Hkey Hne.
    rewrite last_lookup in Hlast.
    destruct (script_args_to_labels_last args (Nat.pred (length args)) t)
      as (ret & Hret & Hlook); try done.
    { intros j k' Hj Hl. apply lookup_lt_Some in Hl. lia. }
    exists ret. split; [done|]. rewrite Hlook.
    by rewrite (lookup_ge_None_2 args) by lia.
Qed.

Lemma labels_last_write_wins_witness :
  sanitize_labels ([("Foo", "1")] ++ ("--foo", "2") :: [("bar", "3")])
    !! key_label (Some "--foo") = Some (value_label (Some "2"))
  ∧ ∃ ret, script_args_to_labels (Some ["--foo"; "bar"; "--FOO"]) = Ok ret
           ∧ ret !! key_label (Some "--FOO") = Some "".
Proof.
  split.
  - apply (proj1 labels_last_write_wins).
    + by vm_compute.
    + intros k' v' Hin. apply list_elem_of_singleton in Hin. injection Hin as -> ->.
      by vm_compute.
  - apply (proj1 (proj2 (proj2 labels_last_write_wins))).
    + simpl. lia.
    + reflexivity.
    + reflexivity.
    + by vm_compute.
Defined.

(** ** [flipm] *)

Section flip.
Context {K1 K2 V : Type} `{Countable K1} `{Countable K2}.
Implicit Types (table : gmap K1 (gmap K2 V)) (ret : gmap K2 (gmap K1 V)).

Lemma flipm_cell_insert k k2 (v : V) ret :
  flipm_cell k k2 v ret = <[k2 := <[k := v]> (default ∅ (ret !! k2))]> ret.
Proof.
  unfold flipm_cell, setdefault.
  destruct (ret !! k2); simpl; [done | apply insert_insert_eq].
Qed.

Lemma cell_flipm_cell k k2 (v : V) ret a b :
  cell (flipm_cell k k2 v ret) a b =
  if decide (a = k2 ∧ b = k) then Some v else cell ret a b.
Proof.
  rewrite flipm_cell_insert. unfold cell.
  destruct (decide (a = k2)) as [->|Ha].
  - rewrite lookup_insert_eq. simpl.
    destruct (decide (b = k)) as [->|Hb].
    + rewrite lookup_insert_eq. by rewrite decide_True.
    + rewrite lookup_insert_ne by done. rewrite decide_False by (intros [? ?]; congruence).
      by destruct (ret !! k2).
  - rewrite lookup_insert_ne by done. by rewrite decide_False by (intros [? ?]; congruence).
Qed.

Lemma flipm_cell_no_empty k k2 (v : V) ret :
  no_empty_rows ret → no_empty_rows (flipm_cell k k2 v ret).
Proof.
  intros Hret a m. rewrite flipm_cell_insert.
  rewrite lookup_insert_Some. intros [[_ <-]|[_ Hm]].
  - apply insert_non_empty.
  - by apply (Hret a).
Qed.

(** The inner loop, over the row [m] of the outer key [k]. *)
Lemma cell_flipm_row k (m : gmap K2 V) ret a b :
  cell (map_fold (λ k2 v ret, flipm_cell k k2 v ret) ret m) a b =
  if decide (b = k) then
    match m !! a with Some v => Some v | None => cell ret a b end
  else cell ret a b.
Proof.
  revert a b.
  apply (map_fold_weak_ind (λ r (m : gmap K2 V), ∀ a b,
    cell r a b =
    if decide (b = k) then
      match m !! a with Some v => Some v | None => cell ret a b end
    else cell ret a b)).
  { intros a b. rewrite lookup_empty. by destruct (decide (b = k)). }
  clear m. intros k2 v m r Hfresh IH a b.
  rewrite cell_flipm_cell, IH.
  destruct (decide (b = k)) as [->|Hb].
  - destruct (decide (a = k2)) as [->|Ha].
    + rewrite decide_True by done. by rewrite lookup_insert_eq.
    + rewrite decide_False by (intros [? ?]; congruence). by rewrite lookup_insert_ne.
  - by rewrite decide_False by (intros [? ?]; congruence).
Qed.

Lemma flipm_row_no_empty k (m : gmap K2 V) ret :
  no_empty_rows ret →
  no_empty_rows (map_fold (λ k2 v ret, flipm_cell k k2 v ret) ret m).
Proof.
  intros Hret.
  apply (map_fold_weak_ind (λ r (_ : gmap K2 V), no_empty_rows r)); [done|].
  intros k2 v _ r _ Hr. by apply flipm_cell_no_empty.
Qed.

Lemma cell_flipm table k2 k : cell (flipm table) k2 k = cell table k k2.
Proof.
  revert k2 k. unfold flipm.
  apply (map_fold_weak_ind (λ r (t : gmap K1 (gmap K2 V)), ∀ k2 k,
    cell r k2 k = cell t k k2)).
  { intros k2 k. unfold cell. by rewrite !lookup_empty. }
  clear table. intros k1 m table r Hfresh IH k2 k.
  rewrite cell_flipm_row, IH. unfold cell.
  destruct (decide (k = k1)) as [->|Hk].
  - rewrite lookup_insert_eq, Hfresh. simpl. by destruct (m !! k2).
  - by rewrite lookup_insert_ne.
Qed.

Lemma flipm_no_empty table : no_empty_rows (flipm table).
Proof.
  unfold flipm.
  apply (map_fold_weak_ind (λ r (_ : gmap K1 (gmap K2 V)), no_empty_rows r)).
  { intros k m. by rewrite lookup_empty. }
  intros k1 m _ r _ Hr. by apply flipm_row_no_empty.
Qed.
End flip.

(** Two tables without empty rows that agree on every cell are equal. *)
Lemma table_ext {K1 K2 V} `{Countable K1} `{Countable K2}
    (t1 t2 : gmap K1 (gmap K2 V)) :
  no_empty_rows t1 → no_empty_rows t2 →
  (∀ k k2, cell t1 k k2 = cell t2 k k2) → t1 = t2.
Proof.
  intros H1 H2 Hcell. apply map_eq. intros k.
  assert (∀ (ta tb : gmap K1 (gmap K2 V)) m,
    no_empty_rows ta → (∀ k2, cell ta k k2 = cell tb k k2) →
    ta !! k = Some m → tb !! k = None → False) as Hno.
  { intros ta tb m Hta Hc Ha Hb.
    destruct (map_choose m) as (k2 & v & Hv); [by apply (Hta k)|].
    specialize (Hc k2). unfold cell in Hc. rewrite Ha, Hb in Hc.
    simpl in Hc. congruence. }
  destruct (t1 !! k) as [m1|] eqn:E1, (t2 !! k) as [m2|] eqn:E2; try done.
  - f_equal. apply map_eq. intros k2. specialize (Hcell k k2).
    unfold cell in Hcell. by rewrite E1, E2 in Hcell.
  - destruct (Hno t1 t2 m1); auto.
  - destruct (Hno t2 t1 m2); auto.
Qed.

(** C7 as the claim words it fails: a table with an empty row has no
    duplicate inner keys, and the row is lost by flipping twice. *)
Lemma flipm_twice_loses_empty_row :
  let t : gmap string (gmap string nat) := {[ "a" := ∅ ]} in
  inner_keys_disjoint t ∧ flipm t = ∅ ∧ flipm (flipm t) = ∅ ∧ flipm (flipm t) ≠ t.
Proof.
  repeat split.
  - intros k k' m m' k2 Hne Hk Hk'.
    apply lookup_singleton_Some in Hk as [<- _].
    apply lookup_singleton_Some in Hk' as [<- _]. done.
  - intros Heq. apply (f_equal (.!! "a")) in Heq.
    rewrite lookup_singleton_eq in Heq. vm_compute in Heq. discriminate.
Qed.

(** C7, amended.  [flipm] is an involution on the two-level tables that
    have no empty inner mapping, whether or not an inner key occurs under
    several outer keys. *)
Theorem flipm_involutive {K1 K2 V} `{Countable K1} `{Countable K2}
    (table : gmap K1 (gmap K2 V)) :
  no_empty_rows table → flipm (flipm table) = table.
Proof.
  intros Htable. apply table_ext; [apply flipm_no_empty | done |].
  intros k k2. by rewrite !cell_flipm.
Qed.

Lemma flipm_involutive_witness :
  let t : gmap string (gmap string nat) :=
    {[ "a" := {[ "x" := 1; "y" := 2 ]}; "b" := {[ "x" := 3 ]} ]} in
  flipm (flipm t) = t.
Proof.
  apply flipm_involutive.
  intros k m Hk Hm. subst m.
  apply lookup_insert_Some in Hk as [[_ Hk]|[_ Hk]].
  - apply (f_equal (.!! "x")) in Hk. vm_compute in Hk. discriminate.
  - apply lookup_singleton_Some in Hk as [_ Hk].
    apply (f_equal (.!! "x")) in Hk. vm_compute in Hk. discriminate.
Defined.

(** ** [invertm] *)

Section invert.
Context {K V : Type} `{Countable K} `{Countable V}.
Implicit Types (table : gmap K (list V)) (ret : gmap V (gset K)).

Lemma invertm_cell_insert k ret v :
  invertm_cell k ret v = <[v := default ∅ (ret !! v) ∪ {[k]}]> ret.
Proof.
  unfold invertm_cell, setdefault.
  destruct (ret !! v); simpl; [done | apply insert_insert_eq].
Qed.

Lemma elem_of_invertm_cell k ret v w k' :
  k' ∈ default ∅ (invertm_cell k ret v !! w)
  ↔ k' ∈ default ∅ (ret !! w) ∨ (k' = k ∧ w = v).
Proof.
  rewrite invertm_cell_insert. destruct (decide (w = v)) as [->|Hw].
  - rewrite lookup_insert_eq. simpl. set_solver.
  - rewrite lookup_insert_ne by done. naive_solver.
Qed.

Lemma invertm_cell_no_empty k ret v :
  (∀ w s, ret !! w = Some s → s ≠ ∅) →
  ∀ w s, invertm_cell k ret v !! w = Some s → s ≠ ∅.
Proof.
  intros Hret w s. rewrite invertm_cell_insert, lookup_insert_Some.
  intros [[_ <-]|[_ Hs]]; [set_solver | by apply (Hret w)].
Qed.

(** The inner loop, over the values [vs] of the key [k]. *)
Lemma elem_of_invertm_row k vs ret w k' :
  k' ∈ default ∅ (foldl (invertm_cell k) ret vs !! w)
  ↔ k' ∈ default ∅ (ret !! w) ∨ (k' = k ∧ w ∈ vs).
Proof.
  revert ret. induction vs as [|v vs IH]; intros ret; simpl.
  - set_solver.
  - rewrite IH, elem_of_invertm_cell. set_solver.
Qed.

Lemma invertm_row_no_empty k vs ret :
  (∀ w s, ret !! w = Some s → s ≠ ∅) →
  ∀ w s, foldl (invertm_cell k) ret vs !! w = Some s → s ≠ ∅.
Proof.
  revert ret. induction vs as [|v vs IH]; intros ret Hret; simpl; [done|].
  by apply IH, invertm_cell_no_empty.
Qed.

Lemma elem_of_invertm table v k :
  k ∈ default ∅ (invertm table !! v) ↔ ∃ vs, table !! k = Some vs ∧ v ∈ vs.
Proof.
  revert v k. unfold invertm.
  apply (map_fold_weak_ind (λ r (t : gmap K (list V)), ∀ v k,
    k ∈ default ∅ (r !! v) ↔ ∃ vs, t !! k = Some vs ∧ v ∈ vs)).
  { intros v k. rewrite lookup_empty. simpl. split; [set_solver|].
    intros (vs & Hvs & _). by rewrite lookup_empty in Hvs. }
  clear table. intros k1 vs table r Hfresh IH v k.
  rewrite elem_of_invertm_row, IH. split.
  - intros [(vs' & Hk & Hv)|[-> Hv]].
    + exists vs'. split; [|done]. rewrite lookup_insert_ne; [done|].
      intros ->. congruence.
    + exists vs. by rewrite lookup_insert_eq.
  - intros (vs' & Hk & Hv). apply lookup_insert_Some in Hk as [[<- <-]|[_ Hk]].
    + by right.
    + left. by exists vs'.
Qed.

Lemma invertm_no_empty table v s : invertm table !! v = Some s → s ≠ ∅.
Proof.
  revert v s. unfold invertm.
  apply (map_fold_weak_ind (λ r (_ : gmap K (list V)),
    ∀ v s, r !! v = Some s → s ≠ ∅)).
  { intros v s. by rewrite lookup_empty. }
  intros k1 vs _ r _ Hr. by apply invertm_row_no_empty.
Qed.
End invert.

(** C9.  [invertm table] binds a value [v] exactly when [v] occurs in the
    iterable of some key, and then to the set of all the keys whose
    iterable contains [v]; on the example of the specification it gives
    [{"a": {"x"}, "b": {"x", "y"}}]. *)
Theorem invertm_spec :
  (∀ (K V : Type) `(Countable K) `(Countable V) (table : gmap K (list V)) v,
     match invertm table !! v with
     | Some ks =>
         (∃ k vs, table !! k = Some vs ∧ v ∈ vs)
         ∧ ∀ k, k ∈ ks ↔ ∃ vs, table !! k = Some vs ∧ v ∈ vs
     | None => ∀ k vs, table !! k = Some vs → v ∉ vs
     end)
  ∧ invertm ({[ "x" := ["a"; "b"]; "y" := ["b"] ]} : gmap string (list string))
    = {[ "a" := {[ "x" ]}; "b" := {[ "x"; "y" ]} ]}.
Proof.
  split; [|by vm_compute].
  intros K V ? ? ? ? table v.
  pose proof (elem_of_invertm table v) as Helem.
  destruct (invertm table !! v) as [ks|] eqn:Hv; simpl in Helem.
  - split; [|done].
    apply invertm_no_empty in Hv. apply set_choose_L in Hv as [k Hk].
    exists k. by apply Helem.
  - intros k vs Hk Hin. apply (not_elem_of_empty (C:=gset K) k), Helem. eauto.
Qed.

(** ** [reorderm] *)

Section reorder.
Context {A : Type} `{Countable A}.
Implicit Types (ret : gmap A (gmap A (gset A))) (order : Z * Z * Z).

Lemma getitem_fields (k k2 v : A) i :
  valid_index i → ∃ y, getitem [k; k2; v] i = Ok y.
Proof.
  unfold valid_index. intros Hi.
  assert (i = -3 ∨ i = -2 ∨ i = -1 ∨ i = 0 ∨ i = 1 ∨ i = 2)%Z
    as [->|[->|[->|[->|[->| ->]]]]] by lia; by eexists.
Qed.

Lemma is_order_valid_index order :
  is_order order →
  valid_index order.1.1 ∧ valid_index order.1.2 ∧ valid_index order.2.
Proof.
  unfold is_order. intros Hperm.
  assert (∀ i, i ∈ [order.1.1; order.1.2; order.2] → valid_index i) as Hin.
  { intros i. rewrite Hperm, !elem_of_cons, elem_of_nil. unfold valid_index.
    intros [->|[->|[->|[]]]]; lia. }
  repeat split; apply Hin; set_solver.
Qed.

Lemma leaf_elem_default ret a b x :
  leaf_elem ret a b x ↔ x ∈ default ∅ (default ∅ (ret !! a) !! b).
Proof.
  unfold leaf_elem. destruct (ret !! a) as [innerm|] eqn:Ha; simpl.
  - destruct (innerm !! b) as [acc|] eqn:Hb; simpl.
    + split; [|by exists innerm, acc].
      intros (innerm' & acc' & [= <-] & Hb' & Hx). congruence.
    + split; [|by intros ?%not_elem_of_empty].
      intros (innerm' & acc' & [= <-] & Hb' & _). congruence.
  - rewrite lookup_empty. simpl. split; [|by intros ?%not_elem_of_empty].
    by intros (innerm' & acc' & ? & _).
Qed.

Lemma leaf_elem_insert ret f0 f1 f2 a b x :
  leaf_elem
    (<[f0 := <[f1 := default ∅ (default ∅ (ret !! f0) !! f1) ∪ {[f2]}]>
               (default ∅ (ret !! f0))]> ret) a b x
  ↔ leaf_elem ret a b x ∨ (a = f0 ∧ b = f1 ∧ x = f2).
Proof.
  rewrite !leaf_elem_default.
  destruct (decide (a = f0)) as [->|Ha].
  - rewrite lookup_insert_eq. simpl.
    destruct (decide (b = f1)) as [->|Hb].
    + rewrite lookup_insert_eq. simpl. set_solver.
    + rewrite lookup_insert_ne by done. naive_solver.
  - rewrite lookup_insert_ne by done. naive_solver.
Qed.

Lemma reorderm_cell_insert order (k k2 v : A) ret f0 f1 f2 :
  getitem [k; k2; v] order.1.1 = Ok f0 →
  getitem [k; k2; v] order.1.2 = Ok f1 →
  getitem [k; k2; v] order.2 = Ok f2 →
  reorderm_cell order k k2 v ret =
  Ok (<[f0 := <[f1 := default ∅ (default ∅ (ret !! f0) !! f1) ∪ {[f2]}]>
                (default ∅ (ret !! f0))]> ret).
Proof.
  intros E0 E1 E2. unfold reorderm_cell, setdefault.
  rewrite E0. cbn [bind].
  destruct (ret !! f0) as [innerm|] eqn:Hr; rewrite E1; cbn [bind].
  - destruct (innerm !! f1) as [acc|] eqn:Hi; rewrite E2; cbn [bind];
      unfold default; simpl; rewrite Hi; simpl; [done|].
    by rewrite insert_insert_eq.
  - rewrite lookup_empty, E2. cbn [bind]. unfold default. simpl.
    rewrite lookup_empty. simpl. by rewrite !insert_insert_eq.
Qed.

Lemma reorderm_cell_spec order (k k2 v : A) ret :
  valid_index order.1.1 → valid_index order.1.2 → valid_index order.2 →
  ∃ ret', reorderm_cell order k k2 v ret = Ok ret'
          ∧ ∀ a b x, leaf_elem ret' a b x
                     ↔ leaf_elem ret a b x ∨ regrouped order k k2 v a b x.
Proof.
  intros H0 H1 H2.
  destruct (getitem_fields k k2 v _ H0) as [f0 E0].
  destruct (getitem_fields k k2 v _ H1) as [f1 E1].
  destruct (getitem_fields k k2 v _ H2) as [f2 E2].
  eexists. split; [by apply reorderm_cell_insert|].
  intros a b x. rewrite leaf_elem_insert. unfold regrouped.
  rewrite E0, E1, E2. naive_solver.
Qed.

(** The innermost loop, over the values [vs] found at [(k, k2)]. *)
Lemma reorderm_values order (k k2 : A) vs ret :
  valid_index order.1.1 → valid_index order.1.2 → valid_index order.2 →
  ∃ ret',
    foldl (λ r v, let* ret := r in reorderm_cell order k k2 v ret)
          (Ok ret) vs = Ok ret'
    ∧ ∀ a b x, leaf_elem ret' a b x
               ↔ leaf_elem ret a b x
                 ∨ ∃ v, v ∈ vs ∧ regrouped order k k2 v a b x.
Proof.
  intros H0 H1 H2. revert ret.
  induction vs as [|v vs IH]; intros ret; cbn [foldl bind].
  - exists ret. split; [done|]. intros a b x. set_solver.
  - destruct (reorderm_cell_spec order k k2 v ret) as (r1 & -> & Hr1);
      try done.
    destruct (IH r1) as (r2 & -> & Hr2).
    exists r2. split; [done|]. intros a b x.
    rewrite Hr2, Hr1. set_solver.
Qed.

(** The middle loop, over the row [m] of the outer key [k]. *)
Lemma reorderm_row order (k : A) (m : gmap A (list A)) ret :
  valid_index order.1.1 → valid_index order.1.2 → valid_index order.2 →
  ∃ ret',
    map_fold
      (λ k2 vs r,
         foldl (λ r v, let* ret := r in reorderm_cell order k k2 v ret) r vs)
      (Ok ret) m = Ok ret'
    ∧ ∀ a b x, leaf_elem ret' a b x
               ↔ leaf_elem ret a b x
                 ∨ ∃ k2 vs v, m !! k2 = Some vs ∧ v ∈ vs
                              ∧ regrouped order k k2 v a b x.
Proof.
  intros H0 H1 H2.
  apply (map_fold_weak_ind (λ r (m : gmap A (list A)),
    ∃ ret', r = Ok ret'
      ∧ ∀ a b x, leaf_elem ret' a b x
                 ↔ leaf_elem ret a b x
                   ∨ ∃ k2 vs v, m !! k2 = Some vs ∧ v ∈ vs
                                ∧ regrouped order k k2 v a b x)).
  { exists ret. split; [done|]. intros a b x. split; [auto|].
    intros [?|(k2 & vs & v & Hm & _)]; [done|].
    by rewrite lookup_empty in Hm. }
  clear m. intros k2 vs m r Hfresh (r1 & -> & Hr1).
  destruct (reorderm_values order k k2 vs r1) as (r2 & -> & Hr2); try done.
  exists r2. split; [done|]. intros a b x. rewrite Hr2, Hr1. split.
  - intros [[?|(k2' & vs' & v & Hm & Hv & Hg)]|(v & Hv & Hg)]; [by left| |].
    + right. exists k2', vs', v. split; [|done].
      rewrite lookup_insert_ne; [done|]. intros ->. congruence.
    + right. exists k2, vs, v. by rewrite lookup_insert_eq.
  - intros [?|(k2' & vs' & v & Hm & Hv & Hg)]; [by do 2 left|].
    apply lookup_insert_Some in Hm as [[<- <-]|[_ Hm]].
    + right. by exists v.
    + left. right. by exists k2', vs', v.
Qed.

Lemma reorderm_table (table : gmap A (gmap A (list A))) order :
  valid_index order.1.1 → valid_index order.1.2 → valid_index order.2 →
  ∃ ret,
    reorderm table order = Ok ret
    ∧ ∀ a b x, leaf_elem ret a b x
               ↔ ∃ k m k2 vs v, table !! k = Some m ∧ m !! k2 = Some vs
                                ∧ v ∈ vs ∧ regrouped order k k2 v a b x.
Proof.
  intros H0 H1 H2. unfold reorderm.
  apply (map_fold_weak_ind (λ r (t : gmap A (gmap A (list A))),
    ∃ ret, r = Ok ret
      ∧ ∀ a b x, leaf_elem ret a b x
                 ↔ ∃ k m k2 vs v, t !! k = Some m ∧ m !! k2 = Some vs
                                  ∧ v ∈ vs ∧ regrouped order k k2 v a b x)).
  { exists ∅. split; [done|]. intros a b x. split.
    - intros (innerm & acc & Hi & _). by rewrite lookup_empty in Hi.
    - intros (k & m & k2 & vs & v & Hk & _). by rewrite lookup_empty in Hk. }
  clear table. intros k m table r Hfresh (r1 & -> & Hr1).
  destruct (reorderm_row order k m r1) as (r2 & Hr2 & Hr2'); try done.
  exists r2. split; [done|]. intros a b x. rewrite Hr2', Hr1. split.
  - intros [(k' & m' & k2 & vs & v & Hk & Hm & Hv & Hg)
           |(k2 & vs & v & Hm & Hv & Hg)].
    + exists k', m', k2, vs, v. split; [|done].
      rewrite lookup_insert_ne; [done|]. intros ->. congruence.
    + exists k, m, k2, vs, v. by rewrite lookup_insert_eq.
  - intros (k' & m' & k2 & vs & v & Hk & Hm & Hv & Hg).
    apply lookup_insert_Some in Hk as [[<- <-]|[_ Hk]].
    + right. by exists k2, vs, v.
    + left. by exists k', m', k2, vs, v.
Qed.
End reorder.

(** C8.  For a permutation [order] of [0, 1, 2], [reorderm] returns, and
    [x] is in [ret[a][b]] exactly when some triple [(k1, k2, v)] of the
    table has [(a, b, x) = (fields[order[0]], fields[order[1]],
    fields[order[2]])] for [fields = [k1, k2, v]]; the leaves are sets, so
    a value met several times is one element. *)
Theorem reorderm_spec {A} `{Countable A}
    (table : gmap A (gmap A (list A))) (order : Z * Z * Z) :
  is_order order →
  ∃ ret,
    reorderm table order = Ok ret
    ∧ ∀ a b x,
        leaf_elem ret a b x
        ↔ ∃ k1 m k2 vs v,
            table !! k1 = Some m ∧ m !! k2 = Some vs ∧ v ∈ vs
            ∧ regrouped order k1 k2 v a b x.
Proof.
  intros Horder. apply is_order_valid_index in Horder as (H0 & H1 & H2).
  by apply reorderm_table.
Qed.

Lemma reorderm_spec_witness :
  ∃ ret,
    reorderm ({[ "x" := {[ "p" := ["u"; "v"; "u"]; "q" := ["u"] ]} ]}
                : gmap string (gmap string (list string))) (2, 0, 1)%Z
    = Ok ret
    ∧ ∀ a b x,
        leaf_elem ret a b x
        ↔ ∃ k1 m k2 vs v,
            ({[ "x" := {[ "p" := ["u"; "v"; "u"]; "q" := ["u"] ]} ]}
               : gmap string (gmap string (list string))) !! k1 = Some m
            ∧ m !! k2 = Some vs ∧ v ∈ vs
            ∧ regrouped (2, 0, 1)%Z k1 k2 v a b x.
Proof.
  apply reorderm_spec. unfold is_order. simpl.
  apply (Permutation_cons_append [0; 1]%Z 2%Z).
Defined.

Example reorderm_example :
  reorderm ({[ "x" := {[ "p" := ["u"; "v"; "u"]; "q" := ["u"] ]} ]}
              : gmap string (gmap string (list string))) (2, 0, 1)%Z
  = Ok {[ "u" := {[ "x" := {[ "p"; "q" ]} ]}; "v" := {[ "x" := {[ "p" ]} ]} ]}.
Proof. by vm_compute. Qed.

(** ** [dict_product] *)

Section product.
Context {X : Type}.

Lemma length_product (vs : list (list X)) :
  length (product vs) = foldr Nat.mul 1 (length <$> vs).
Proof.
  induction vs as [|xs vs IH]; [done|].
  cbn [product fmap list_fmap foldr]. rewrite <- IH. clear IH.
  induction xs as [|x xs IHxs]; [done|].
  rewrite bind_cons, length_app, length_fmap, IHxs. cbn [length]. lia.
Qed.

(** A tuple of the product takes its [i]-th item from the [i]-th list. *)
Lemma elem_of_product (vs : list (list X)) x :
  x ∈ product vs ↔ Forall2 (λ xi xs, xi ∈ xs) x vs.
Proof.
  revert x. induction vs as [|xs vs IH]; intros x; cbn [product].
  - rewrite list_elem_of_singleton. split; [by intros ->|].
    by intros ->%Forall2_nil_inv_r.
  - rewrite list_elem_of_bind. split.
    + intros (h & Hx & Hh). apply list_elem_of_fmap in Hx as (t & -> & Ht).
      constructor; [done|]. by apply IH.
    + intros (h & t & Hh & Ht & ->)%Forall2_cons_inv_r.
      exists h. split; [|done]. apply list_elem_of_fmap.
      exists t. split; [done|]. by apply IH.
Qed.

Lemma product_nil_elem (vs : list (list X)) : [] ∈ vs → product vs = [].
Proof.
  intros Hin. apply nil_length_inv. rewrite length_product.
  induction vs as [|xs vs IH]; [by apply elem_of_nil in Hin|].
  apply elem_of_cons in Hin as [<-|Hin]; cbn [fmap list_fmap foldr].
  - done.
  - change (list_fmap _ _ length vs) with (length <$> vs).
    rewrite IH by done. lia.
Qed.
End product.

Section dict.
Context {K V : Type} `{Countable K}.

Lemma dict_snoc (pairs : list (K * V)) k v :
  dict (pairs ++ [(k, v)]) = <[k := v]> (dict pairs).
Proof. unfold dict. by rewrite foldl_app. Qed.

Lemma dom_dict (pairs : list (K * V)) :
  dom (dict pairs) = list_to_set pairs.*1.
Proof.
  induction pairs as [|[k v] pairs IH] using rev_ind; [apply dom_empty_L|].
  rewrite dict_snoc, dom_insert_L, IH, fmap_app, list_to_set_app_L.
  simpl. set_solver.
Qed.

Lemma dict_lookup (pairs : list (K * V)) k v :
  NoDup pairs.*1 → (k, v) ∈ pairs → dict pairs !! k = Some v.
Proof.
  induction pairs as [|[k' v'] pairs IH] using rev_ind; intros Hnd Hin.
  { by apply elem_of_nil in Hin. }
  rewrite fmap_app in Hnd. apply NoDup_app in Hnd as (Hnd & Hfresh & _).
  rewrite dict_snoc. apply elem_of_app in Hin as [Hin|Hin].
  - rewrite lookup_insert_ne; [by apply IH|].
    intros ->. apply (Hfresh k); [|simpl; left].
    apply list_elem_of_fmap. by exists (k, v).
  - apply list_elem_of_singleton in Hin as [= -> ->]. apply lookup_insert_eq.
Qed.
End dict.

Lemma dict_product_keys {K A} (m : list (K * value A)) :
  ((λ kv, (kv.1, wrap_v kv.2)) <$> m).*1 = m.*1.
Proof. rewrite <- list_fmap_compose. by apply list_fmap_ext. Qed.

Lemma dict_product_values {K A} (m : list (K * value A)) :
  ((λ kv, (kv.1, wrap_v kv.2)) <$> m).*2 = (λ kv, wrap_v kv.2) <$> m.
Proof. rewrite <- list_fmap_compose. by apply list_fmap_ext. Qed.

Lemma dict_product_unfold {K A} `{Countable K} (m : list (K * value A)) :
  dict_product m
  = (λ x, dict (zip m.*1 x)) <$> product ((λ kv, wrap_v kv.2) <$> m).
Proof.
  unfold dict_product. cbv zeta.
  by rewrite dict_product_keys, dict_product_values.
Qed.

(** C6.  For a dict [m] (items in insertion order, keys distinct),
    [dict_product m] yields as many dicts as the product of the lengths of
    the wrapped values; each has exactly the keys of [m], and binds every
    key to one item of that key's wrapped value; an empty list among the
    values leaves nothing; on [{"a": [1, 2], "b": 3}] it yields
    [{"a": 1, "b": 3}] and then [{"a": 2, "b": 3}]. *)
Theorem dict_product_spec :
  (∀ (K A : Type) `(Countable K) (m : list (K * value A)),
     NoDup m.*1 →
     length (dict_product m)
     = foldr Nat.mul 1 ((λ kv, length (wrap_v kv.2)) <$> m)
     ∧ (∀ d, d ∈ dict_product m →
             dom d = list_to_set m.*1
             ∧ ∀ k v, (k, v) ∈ m → ∃ x, d !! k = Some x ∧ x ∈ wrap_v v)
     ∧ ((∃ k, (k, PyList []) ∈ m) → dict_product m = []))
  ∧ dict_product [("a", PyList [Atom 1%Z; Atom 2%Z]); ("b", Atom 3%Z)]
    = [ {[ "a" := Atom 1%Z; "b" := Atom 3%Z ]};
        {[ "a" := Atom 2%Z; "b" := Atom 3%Z ]} ].
Proof.
  split; [|by vm_compute].
  intros K A ? ? m Hnd. rewrite dict_product_unfold.
  split; [|split].
  - rewrite length_fmap, length_product. f_equal.
    rewrite <- list_fmap_compose. by apply list_fmap_ext.
  - intros d Hd. apply list_elem_of_fmap in Hd as (x & -> & Hx).
    apply elem_of_product in Hx.
    assert (length m.*1 = length x) as Hlen.
    { apply Forall2_length in Hx. rewrite !length_fmap in *. lia. }
    split.
    + rewrite dom_dict, fst_zip; [done | lia].
    + intros k v Hkv. apply list_elem_of_lookup in Hkv as [i Hi].
      destruct (Forall2_lookup_r _ _ _ i (wrap_v v) Hx) as (xi & Hxi & Hin).
      { by rewrite list_lookup_fmap, Hi. }
      exists xi. split; [|done]. apply dict_lookup.
      * rewrite fst_zip; [done | lia].
      * apply list_elem_of_lookup. exists i.
        rewrite lookup_zip_with, list_lookup_fmap, Hi. simpl. by rewrite Hxi.
  - intros (k & Hk). rewrite product_nil_elem; [done|].
    apply list_elem_of_fmap. by exists (k, PyList []).
Qed.

Lemma dict_product_spec_witness :
  let m := [("a", PyList [Atom 1%Z; Atom 2%Z]); ("b", Atom 3%Z)] in
  length (dict_product m)
  = foldr Nat.mul 1 ((λ kv, length (wrap_v kv.2)) <$> m)
  ∧ (∀ d, d ∈ dict_product m →
          dom d = list_to_set m.*1
          ∧ ∀ k v, (k, v) ∈ m → ∃ x, d !! k = Some x ∧ x ∈ wrap_v v)
  ∧ ((∃ k, (k, PyList []) ∈ m) → dict_product m = []).
Proof.
  apply (proj1 dict_product_spec string Z _ _).
  simpl. apply NoDup_cons. split; [|apply NoDup_singleton].
  intros Hin. apply list_elem_of_singleton in Hin. discriminate.
Defined.

(** * Further properties *)

(** ** [merge] and [dict_by] *)

Lemma merge_lookup_aux {K V} `{Countable K} (l r : gmap K V) k :
  merge l r !! k = match r !! k with Some v => Some v | None => l !! k end.
Proof.
  revert k. unfold merge. cbv zeta.
  apply (map_fold_weak_ind (λ ret (r : gmap K V), ∀ k,
    ret !! k = match r !! k with Some v => Some v | None => l !! k end)).
  { intros k. by rewrite lookup_empty. }
  intros i x m ret Hfresh IH k. destruct (decide (i = k)) as [->|Hne].
  - by rewrite !lookup_insert_eq.
  - by rewrite !lookup_insert_ne.
Qed.

(** X1.  [merge(l, r)] reads like [r] where [r] has the key and like [l]
    elsewhere; its keys are those of [l] and of [r]. *)
Theorem merge_lookup {K V} `{Countable K} (l r : gmap K V) :
  (∀ k, merge l r !! k
        = match r !! k with Some v => Some v | None => l !! k end)
  ∧ dom (merge l r) = dom l ∪ dom r.
Proof.
  split; [apply merge_lookup_aux|].
  apply set_eq. intros k. rewrite elem_of_union, !elem_of_dom, merge_lookup_aux.
  destruct (r !! k) as [v|] eqn:Hr.
  - split; [by right | by eauto].
  - split; [by left | intros [?|[? ?]]; done].
Qed.

(** X2.  [merge] is associative, has the empty dict as a unit on both
    sides, and merging a dict with itself changes nothing. *)
Theorem merge_monoid {K V} `{Countable K} (a b c : gmap K V) :
  merge (merge a b) c = merge a (merge b c)
  ∧ merge a ∅ = a
  ∧ merge ∅ a = a
  ∧ merge a a = a.
Proof.
  split; [|split; [|split]]; apply map_eq; intros k;
    rewrite ?merge_lookup_aux.
  - by destruct (c !! k), (b !! k).
  - by rewrite lookup_empty.
  - destruct (a !! k); [done | apply lookup_empty].
  - by destruct (a !! k).
Qed.

(** X3.  [dict_by(keys, f)] binds exactly the keys of [keys], each key [k]
    to [f(k)]. *)
Theorem dict_by_lookup {V} (keys : gset string) (f : string → V) :
  (∀ k, dict_by keys f !! k = if decide (k ∈ keys) then Some (f k) else None)
  ∧ dom (dict_by keys f) = keys.
Proof.
  assert (∀ k, (k ∈ keys → dict_by keys f !! k = Some (f k))
               ∧ (k ∉ keys → dict_by keys f !! k = None)) as Hboth.
  { unfold dict_by.
    apply (set_fold_ind_L (λ ret (X : gset string), ∀ k,
      (k ∈ X → ret !! k = Some (f k)) ∧ (k ∉ X → ret !! k = None))).
    - intros k. split; [set_solver | by rewrite lookup_empty].
    - intros x X ret Hx IH k. destruct (decide (x = k)) as [->|Hne].
      + rewrite lookup_insert_eq. split; [done | set_solver].
      + rewrite lookup_insert_ne by done. destruct (IH k) as [Hin Hout].
        split; intros Hk; [apply Hin | apply Hout]; set_solver. }
  assert (∀ k, dict_by keys f !! k
               = if decide (k ∈ keys) then Some (f k) else None) as Hlook.
  { intros k. destruct (Hboth k) as [Hin Hout]. case_decide; auto. }
  split; [done|]. apply set_eq. intros k. rewrite elem_of_dom, Hlook.
  destruct (decide (k ∈ keys)); [by eauto|]. split; [by intros [? ?]|done].
Qed.

(** ** The shape of [partition] *)

(** X4.  A sequence shorter than [n] is yielded whole, as one group that is
    shorter than [n]. *)
Theorem partition_short {A} (l : list A) (n : nat) :
  length l < n → partition l n = [l].
Proof.
  intros Hlt. unfold partition, range.
  replace (Z.to_nat (Z.max 1 (Z.of_nat (length l) - Z.of_nat n + 1))) with 1
    by lia.
  cbn [List.seq fmap list_fmap]. unfold window.
  rewrite drop_0, take_ge by lia. done.
Qed.

Lemma partition_short_witness : partition ["--verbose"] 2 = [["--verbose"]].
Proof. apply partition_short. simpl. lia. Defined.



(** ** Which labels the builders create *)

Lemma run_calls_is_Some ret cs key :
  is_Some (run_calls ret cs !! key)
  ↔ is_Some (ret !! key)
    ∨ ∃ k v, (k, v) ∈ cs ∧ _is_key k = true ∧ key_label k = key ∧ key ≠ "".
Proof.
  revert ret. induction cs as [|[k v] cs IH]; intros ret.
  - cbn [run_calls foldl]. split; [auto|].
    intros [?|(k & v & Hin & _)]; [done|]. by apply elem_of_nil in Hin.
  - cbn [run_calls foldl fst snd]. fold (run_calls (process_pair ret k v) cs).
    rewrite IH. clear IH.
    destruct (process_pair_cases ret k v) as [(Hk & Hne & ->)|[Hskip ->]].
    + split.
      * intros [Hsome|(k' & v' & Hin & Hk' & Hl & Hn)].
        -- destruct (decide (key_label k = key)) as [<-|Hd].
           ++ right. exists k, v. split; [left|done].
           ++ left. by rewrite lookup_insert_ne in Hsome.
        -- right. exists k', v'. split; [by right|done].
      * intros [Hsome|(k' & v' & Hin & Hk' & Hl & Hn)].
        -- left. destruct (decide (key_label k = key)) as [<-|Hd].
           ++ rewrite lookup_insert_eq. eauto.
           ++ by rewrite lookup_insert_ne.
        -- apply elem_of_cons in Hin as [[= -> ->]|Hin].
           ++ left. rewrite <- Hl, lookup_insert_eq. eauto.
           ++ right. by exists k', v'.
    + split.
      * intros [?|(k' & v' & Hin & ?)]; [by left|].
        right. exists k', v'. split; [by right|done].
      * intros [?|(k' & v' & Hin & Hk' & Hl & Hn)]; [by left|].
        apply elem_of_cons in Hin as [[= -> ->]|Hin].
        -- destruct Hskip as [Hs|Hs]; congruence.
        -- right. by exists k', v'.
Qed.

(** X6.  On a list of at least two arguments [script_args_to_labels]
    returns, and its keys are exactly the non-empty sanitised forms of the
    arguments that are classified as keys: no other argument gives a label. *)
Theorem script_args_to_labels_keys (args : list string) :
  2 ≤ length args →
  ∃ ret,
    script_args_to_labels (Some args) = Ok ret
    ∧ ∀ key, is_Some (ret !! key)
             ↔ ∃ t, t ∈ args ∧ _is_key (Some t) = true
                    ∧ key_label (Some t) = key ∧ key ≠ "".
Proof.
  intros Hlen. eexists. split; [by apply script_args_to_labels_calls|].
  intros key. rewrite run_calls_is_Some, lookup_empty. split.
  - intros [[? ?]|(k & v & Hin & Hk & Hl & Hn)]; [done|].
    apply list_elem_of_lookup in Hin as [i Hi].
    apply calls_lookup_inv in Hi as (Hlt & -> & _).
    destruct (args !! i) as [t|] eqn:Ht; [|done].
    exists t. split; [|done]. apply list_elem_of_lookup. eauto.
  - intros (t & Hin & Hk & Hl & Hn). right.
    apply list_elem_of_lookup in Hin as [i Hi].
    exists (Some t), (args !! S i). split; [|done].
    apply list_elem_of_lookup. exists i.
    rewrite calls_lookup by (by eapply lookup_lt_Some). by rewrite Hi.
Qed.

Lemma script_args_to_labels_keys_witness :
  ∃ ret,
    script_args_to_labels (Some ["--foo"; "bar"; "--flag"]) = Ok ret
    ∧ ∀ key, is_Some (ret !! key)
             ↔ ∃ t, t ∈ ["--foo"; "bar"; "--flag"] ∧ _is_key (Some t) = true
                    ∧ key_label (Some t) = key ∧ key ≠ "".
Proof. apply script_args_to_labels_keys. simpl. lia. Defined.

(** X7.  The keys of [sanitize_labels(pairs)] are exactly the non-empty
    sanitised forms of the keys of [pairs]. *)
Theorem sanitize_labels_keys (pairs : list (string * string)) :
  ∀ key, is_Some (sanitize_labels pairs !! key)
         ↔ ∃ k v, (k, v) ∈ pairs ∧ key_label (Some k) = key ∧ key ≠ "".
Proof.
  intros key. induction pairs as [|[k v] pairs IH] using rev_ind.
  - split; [by intros [? ?]|]. intros (k & v & Hin & _).
    by apply elem_of_nil in Hin.
  - rewrite sanitize_labels_snoc.
    destruct (truthy (key_label (Some k))) eqn:Ht.
    + apply truthy_true in Ht. split.
      * intros Hsome. destruct (decide (key_label (Some k) = key)) as [<-|Hd].
        -- exists k, v. split; [|done]. apply elem_of_app. right. left.
        -- rewrite lookup_insert_ne in Hsome by done.
           apply IH in Hsome as (k' & v' & Hin & ?).
           exists k', v'. split; [|done]. apply elem_of_app. by left.
      * intros (k' & v' & Hin & Hl & Hn).
        apply elem_of_app in Hin as [Hin|Hin].
        -- destruct (decide (key_label (Some k) = key)) as [<-|Hd].
           ++ rewrite lookup_insert_eq. eauto.
           ++ rewrite lookup_insert_ne by done. apply IH. by exists k', v'.
        -- apply list_elem_of_singleton in Hin as [= -> ->].
           rewrite Hl, lookup_insert_eq. eauto.
    + rewrite IH. split.
      * intros (k' & v' & Hin & ?). exists k', v'. split; [|done].
        apply elem_of_app. by left.
      * intros (k' & v' & Hin & Hl & Hn).
        apply elem_of_app in Hin as [Hin|Hin]; [by exists k', v'|].
        apply list_elem_of_singleton in Hin as [= -> ->].
        assert (truthy (key_label (Some k)) = true) as Ht'.
        { apply truthy_true. congruence. }
        congruence.
Qed.

(** ** Sanitising what is already a label *)

Lemma label_char_lower c : label_char c = true → lower_char c = c.
Proof. destruct c as [[] [] [] [] [] [] [] []]; vm_compute; congruence. Qed.

Lemma letter_not_dash c : in_range 97 122 c = true → Ascii.eqb c "-" = false.
Proof. destruct c as [[] [] [] [] [] [] [] []]; vm_compute; congruence. Qed.

Lemma lower_label s : all_chars label_char s = true → lower s = s.
Proof.
  induction s as [|c s IH]; simpl; [done|].
  intros [Hc Hs]%andb_true_iff. by rewrite IH, label_char_lower.
Qed.

Lemma sub_unallowed_label s :
  all_chars label_char s = true → sub_unallowed s = s.
Proof.
  induction s as [|c s IH]; simpl; [done|].
  intros [Hc Hs]%andb_true_iff. by rewrite Hc, IH.
Qed.

Lemma all_chars_lstrip p chars s :
  all_chars p s = true → all_chars p (lstrip chars s) = true.
Proof.
  induction s as [|c s IH]; simpl; [done|].
  intros Hall. destruct (mem_char c chars); [|done].
  apply andb_true_iff in Hall as [_ Hs]. auto.
Qed.

Lemma length_lstrip chars s : String.length (lstrip chars s) ≤ String.length s.
Proof.
  induction s as [|c s IH]; simpl; [done|].
  destruct (mem_char c chars); simpl; lia.
Qed.

Lemma key_label_fixed s : valid_key s → key_label (Some s) = s.
Proof.
  intros (Hne & [Hlen Hall] & Hletter).
  destruct s as [|c r]; [done|]. simpl in Hletter.
  unfold key_label. rewrite _clean_label_steps. cbv zeta.
  assert (lstrip "-" (String c r) = String c r) as ->.
  { simpl. by rewrite (letter_not_dash c Hletter). }
  rewrite lower_label, sub_unallowed_label by done.
  cbn [prepend_k_unless_letter]. unfold is_letter. rewrite Hletter.
  cbn [orb]. by apply slice_to_all.
Qed.

(** X8.  [key_label] leaves a well-formed key as it is, so sanitising a key
    twice gives what sanitising it once gives. *)
Theorem key_label_idempotent :
  (∀ s, valid_key s → key_label (Some s) = s)
  ∧ (∀ k, key_label (Some (key_label k)) = key_label k).
Proof.
  split; [apply key_label_fixed|].
  intros k. destruct (decide (key_label k = "")) as [->|Hne]; [done|].
  by apply key_label_fixed, key_label_valid.
Qed.

Lemma key_label_idempotent_witness : key_label (Some "k123abc") = "k123abc".
Proof.
  apply (proj1 key_label_idempotent).
  split; [done|]. split; [|done]. split; [simpl; lia | done].
Defined.

(** X9.  On a well-formed value [value_label] only strips the leading
    dashes: a value that starts with a dash is well-formed and still
    changed, so [value_label], unlike [key_label], is not idempotent. *)
Theorem value_label_of_valid (s : string) :
  valid_value s → value_label (Some s) = lstrip "-" s.
Proof.
  intros [Hlen Hall]. unfold value_label. rewrite _clean_label_steps. cbv zeta.
  rewrite lower_label, sub_unallowed_label by by apply all_chars_lstrip.
  apply slice_to_all. pose proof (length_lstrip "-" s). lia.
Qed.

Lemma value_label_of_valid_witness :
  value_label (Some "-a") = lstrip "-" "-a".
Proof. apply value_label_of_valid. split; [simpl; lia | done]. Defined.

Example value_label_not_idempotent :
  value_label (Some ".-a") = "-a" ∧ value_label (Some "-a") = "a".
Proof. done. Qed.

(** ** [expand_args], and parsing what it builds *)

Lemma expand_args_cons k v items :
  expand_args ((k, v) :: items)
  = match v with Some v => [k; v] | None => [k] end ++ expand_args items.
Proof. done. Qed.

Lemma expand_args_app a b : expand_args (a ++ b) = expand_args a ++ expand_args b.
Proof. unfold expand_args. cbv zeta. by rewrite fmap_app, concat_app. Qed.

(** X10.  [expand_args] keeps the keys in order, puts each value that is
    not [None] right after its key, and leaves out the values that are
    [None]: the result has one string per item plus one per such value, and
    it is the list of keys when every value is [None]. *)
Theorem expand_args_shape (items : list (string * option string)) :
  length (expand_args items)
  = length items + length (filter (λ kv, is_Some kv.2) items)
  ∧ items.*1 `sublist_of` expand_args items
  ∧ (Forall (λ kv, kv.2 = None) items → expand_args items = items.*1)
  ∧ ∀ pre k v post,
      items = pre ++ (k, Some v) :: post →
      expand_args items = expand_args pre ++ k :: v :: expand_args post.
Proof.
  repeat split.
  - induction items as [|[k [v|]] items IH]; [done| |];
      rewrite expand_args_cons, length_app, IH.
    + rewrite filter_cons_True by (simpl; eauto). simpl. lia.
    + rewrite filter_cons_False by (simpl; by intros [? ?]). simpl. lia.
  - induction items as [|[k [v|]] items IH]; [done| |];
      rewrite expand_args_cons; simpl.
    + apply sublist_skip. by apply sublist_cons.
    + by apply sublist_skip.
  - induction 1 as [|[k v] items Hv _ IH]; [done|].
    simpl in Hv. subst v. rewrite expand_args_cons, IH. done.
  - intros pre k v post ->. by rewrite expand_args_app, expand_args_cons.
Qed.

Lemma calls_cons t (rest : list string) :
  calls (t :: rest) = (Some t, rest !! 0) :: calls rest.
Proof.
  unfold calls. cbn [length List.seq fmap list_fmap]. f_equal.
  rewrite <- fmap_S_seq, <- list_fmap_compose. done.
Qed.

(** The step of the fold of [sanitize_labels]. *)
Lemma not_key_skip ret v w :
  _is_key (Some v) = false → process_pair ret (Some v) w = ret.
Proof. intros Hv. apply process_pair_skip. by left. Qed.

Lemma run_calls_expand_args items ret :
  Forall (λ kv, _is_key (Some kv.1) = true) items →
  Forall (λ kv, ∀ v, kv.2 = Some v → _is_key (Some v) = false) items →
  run_calls ret (calls (expand_args items))
  = foldl (λ ret kv,
             if truthy (key_label (Some kv.1))
             then <[key_label (Some kv.1) := value_label (Some kv.2)]> ret
             else ret)
          ret ((λ kv, (kv.1, default "" kv.2)) <$> items).
Proof.
  intros Hkeys Hvals. revert ret.
  induction items as [|[k v] items IH]; intros ret; [done|].
  apply Forall_cons in Hkeys as [Hk Hkeys].
  apply Forall_cons in Hvals as [Hv Hvals]. cbn [fst snd] in Hk, Hv.
  specialize (IH Hkeys Hvals).
  rewrite expand_args_cons.
  assert (∀ w, recorded w = "" →
    process_pair ret (Some k) w
    = if truthy (key_label (Some k))
      then <[key_label (Some k) := ""]> ret else ret) as Hflag.
  { intros w Hw.
    destruct (process_pair_cases ret (Some k) w) as [(_ & Hne & ->)|[Hs ->]].
    - by rewrite (proj2 (truthy_true _) Hne), Hw.
    - destruct Hs as [Hs|Hs]; [congruence|]. by rewrite Hs. }
  destruct v as [v|]; cbn [app fmap list_fmap foldl fst snd default].
  - rewrite !calls_cons. cbn [run_calls foldl fst snd].
    fold (run_calls
      (process_pair (process_pair ret (Some k) (Some v)) (Some v)
                    (expand_args items !! 0))
      (calls (expand_args items))).
    rewrite not_key_skip by auto. rewrite IH. f_equal.
    change ((v :: expand_args items) !! 0) with (Some v). change (id v) with v.
    destruct (process_pair_cases ret (Some k) (Some v))
      as [(_ & Hne & ->)|[Hs ->]].
    + rewrite (proj2 (truthy_true _) Hne). unfold recorded.
      by rewrite (Hv v eq_refl).
    + destruct Hs as [Hs|Hs]; [congruence|]. by rewrite Hs.
  - rewrite calls_cons. cbn [run_calls foldl fst snd].
    fold (run_calls (process_pair ret (Some k) (expand_args items !! 0))
                    (calls (expand_args items))).
    rewrite IH. f_equal. apply Hflag.
    destruct items as [|[k' v'] items']; [done|].
    apply Forall_cons in Hkeys as [Hk' _]. cbn [fst snd] in Hk'.
    rewrite expand_args_cons. unfold recorded.
    assert ((match v' with Some v => [k'; v] | None => [k'] end
             ++ expand_args items') !! 0 = Some k') as -> by by destruct v'.
    by rewrite Hk'.
Qed.

(** X11.  When every key of [items] is classified as a key and no value is,
    parsing the expanded arguments gives what [sanitize_labels] gives on the
    items (a value [None] read as the empty string), provided the expansion
    has at least two strings. *)
Theorem script_args_to_labels_expand_args
    (items : list (string * option string)) :
  Forall (λ kv, _is_key (Some kv.1) = true) items →
  Forall (λ kv, ∀ v, kv.2 = Some v → _is_key (Some v) = false) items →
  2 ≤ length (expand_args items) →
  script_args_to_labels (Some (expand_args items))
  = Ok (sanitize_labels ((λ kv, (kv.1, default "" kv.2)) <$> items)).
Proof.
  intros Hkeys Hvals Hlen.
  rewrite script_args_to_labels_calls by done.
  by rewrite run_calls_expand_args.
Qed.

Lemma script_args_to_labels_expand_args_witness :
  script_args_to_labels
    (Some (expand_args [("--Rate", Some "0.1"); ("--dry-run", None)]))
  = Ok (sanitize_labels
          ((λ kv, (kv.1, default "" kv.2))
             <$> [("--Rate", Some "0.1"); ("--dry-run", None)])).
Proof.
  apply script_args_to_labels_expand_args.
  - repeat constructor.
  - repeat constructor; simpl; intros v [= <-]; reflexivity.
  - simpl. lia.
Defined.

(** ** Chunks *)

Section chunks.
Context {A : Type}.
Implicit Types (items : list A).

Lemma slice_step_lookup i step items j :
  1 ≤ step → slice_step i step items !! j = items !! (i + j * step).
Proof.
  intros Hstep. revert i j.
  induction items as [|x items IH]; intros i j; [done|].
  destruct i as [|i]; cbn [slice_step].
  - destruct j as [|j]; [done|]. cbn [lookup list_lookup]. rewrite IH.
    replace (0 + S j * step) with (S (step - 1 + j * step)) by lia. done.
  - rewrite IH. done.
Qed.

Lemma length_slice_step i step items :
  1 ≤ step →
  length (slice_step i step items) = (length items + step - 1 - i) / step.
Proof.
  intros Hstep. revert i.
  induction items as [|x items IH]; intros i; cbn [slice_step length].
  - symmetry. apply Nat.div_small. lia.
  - destruct i as [|i]; cbn [length]; rewrite IH.
    + replace (length items + step - 1 - (step - 1)) with (length items) by lia.
      replace (S (length items) + step - 1 - 0) with (length items + 1 * step)
        by lia.
      rewrite Nat.div_add by lia. lia.
    + f_equal. lia.
Qed.

Lemma concat_chunks_nil step (l : list nat) :
  concat ((λ i, slice_step i step (@nil A)) <$> l) = [].
Proof. induction l as [|i l IH]; [done|]. by rewrite fmap_cons. Qed.

(** The chunks of [x :: items]: the first takes [x] in front of what was the
    last chunk, the others are the earlier chunks, moved by one. *)
Lemma chunks_cons n x items :
  (λ i, slice_step i (S n) (x :: items)) <$> seq 0 (S n)
  = (x :: slice_step n (S n) items)
      :: ((λ i, slice_step i (S n) items) <$> seq 0 n).
Proof.
  cbn [seq fmap list_fmap slice_step]. f_equal.
  - by replace (S n - 1) with n by lia.
  - rewrite <- fmap_S_seq, <- list_fmap_compose. done.
Qed.

Lemma concat_chunks n items :
  concat ((λ i, slice_step i (S n) items) <$> seq 0 (S n)) ≡ₚ items.
Proof.
  induction items as [|x items IH].
  - by rewrite concat_chunks_nil.
  - rewrite chunks_cons. cbn [concat app]. constructor.
    rewrite <- IH at 2. rewrite seq_S, fmap_app, concat_app. cbn [fmap list_fmap concat Nat.add].
    rewrite app_nil_r. apply Permutation_app_comm.
Qed.

Lemma n_chunks_perm items (n : Z) : (1 ≤ n)%Z → concat (n_chunks items n) ≡ₚ items.
Proof.
  intros Hn. unfold n_chunks, range.
  destruct (Z.to_nat n) as [|m] eqn:Hm; [lia|]. apply concat_chunks.
Qed.

Lemma n_chunks_sizes items (n : Z) chunk :
  (1 ≤ n)%Z → chunk ∈ n_chunks items n →
  length items / Z.to_nat n ≤ length chunk ≤ length items / Z.to_nat n + 1.
Proof.
  intros Hn Hin. unfold n_chunks, range in Hin.
  apply list_elem_of_fmap in Hin as (i & -> & Hi). apply elem_of_seq in Hi.
  rewrite length_slice_step by lia.
  set (m := Z.to_nat n) in *. assert (1 ≤ m) as Hm by lia. split.
  - apply Nat.Div0.div_le_mono. lia.
  - replace (length items / m + 1) with ((length items + 1 * m) / m)
      by (rewrite Nat.div_add by lia; lia).
    apply Nat.Div0.div_le_mono. lia.
Qed.
End chunks.

(** X12.  For [n_groups >= 1], [n_chunks] returns [n_groups] chunks that
    together hold the items of the list, each once; chunk [i] holds the
    items at the positions [i], [i + n_groups], [i + 2 * n_groups], ... *)
Theorem n_chunks_spec {A} (items : list A) (n_groups : Z) :
  (1 ≤ n_groups)%Z →
  length (n_chunks items n_groups) = Z.to_nat n_groups
  ∧ concat (n_chunks items n_groups) ≡ₚ items
  ∧ ∀ i j, i < Z.to_nat n_groups →
           n_chunks items n_groups !! i ≫= (.!! j)
           = items !! (i + j * Z.to_nat n_groups).
Proof.
  intros Hn. split; [|split].
  - unfold n_chunks, range. by rewrite length_fmap, length_seq.
  - by apply n_chunks_perm.
  - intros i j Hi. unfold n_chunks, range.
    rewrite list_lookup_fmap, lookup_seq_lt by done. simpl.
    apply slice_step_lookup. lia.
Qed.

Lemma n_chunks_spec_witness :
  length (n_chunks [1; 2; 3; 4; 5; 6; 7] 3%Z) = Z.to_nat 3
  ∧ concat (n_chunks [1; 2; 3; 4; 5; 6; 7] 3%Z) ≡ₚ [1; 2; 3; 4; 5; 6; 7]
  ∧ ∀ i j, i < Z.to_nat 3 →
           n_chunks [1; 2; 3; 4; 5; 6; 7] 3%Z !! i ≫= (.!! j)
           = [1; 2; 3; 4; 5; 6; 7] !! (i + j * Z.to_nat 3).
Proof. apply n_chunks_spec. lia. Defined.

(** X13.  The chunks of [n_chunks] are balanced: each has
    [len(items) // n_groups] items or one more. *)
Theorem n_chunks_balanced {A} (items : list A) (n_groups : Z) :
  (1 ≤ n_groups)%Z →
  Forall (λ chunk,
            length items / Z.to_nat n_groups ≤ length chunk
            ≤ length items / Z.to_nat n_groups + 1)
         (n_chunks items n_groups).
Proof.
  intros Hn. apply Forall_forall. intros chunk Hin.
  by apply n_chunks_sizes.
Qed.

Lemma n_chunks_balanced_witness :
  Forall (λ chunk, 7 / Z.to_nat 3 ≤ length chunk ≤ 7 / Z.to_nat 3 + 1)
         (n_chunks [1; 2; 3; 4; 5; 6; 7] 3%Z).
Proof. apply (n_chunks_balanced [1; 2; 3; 4; 5; 6; 7] 3). lia. Defined.

(** X14.  For [limit >= 1], [chunks_below_limit] returns
    [len(items) // limit + 1] chunks that together hold the items of the
    list, each once, and no chunk has more than [limit] items. *)
Theorem chunks_below_limit_spec {A} (items : list A) (limit : Z) :
  (1 ≤ limit)%Z →
  ∃ chunks,
    chunks_below_limit items limit = Some chunks
    ∧ length chunks = length items / Z.to_nat limit + 1
    ∧ concat chunks ≡ₚ items
    ∧ Forall (λ chunk, length chunk ≤ Z.to_nat limit) chunks.
Proof.
  intros Hlimit. unfold chunks_below_limit.
  destruct (Z.eqb_spec limit 0) as [|_]; [lia|]. cbv zeta.
  eexists. split; [done|].
  set (m := Z.to_nat limit). assert (1 ≤ m) as Hm by lia.
  assert (Z.of_nat (length items) / limit + 1
          = Z.of_nat (length items / m + 1))%Z as Hq.
  { rewrite Nat2Z.inj_add, Nat2Z.inj_div. unfold m. rewrite Z2Nat.id by lia.
    done. }
  rewrite Hq.
  assert (1 ≤ Z.of_nat (length items / m + 1))%Z as Hpos by lia.
  split; [|split].
  - unfold n_chunks, range. rewrite length_fmap, length_seq. lia.
  - by apply n_chunks_perm.
  - apply Forall_forall. intros chunk Hin.
    apply n_chunks_sizes in Hin as [_ Hle]; [|done].
    rewrite Nat2Z.id in Hle.
    assert (length items / (length items / m + 1) < m); [|lia].
    apply Nat.Div0.div_lt_upper_bound.
    pose proof (Nat.div_mod_eq (length items) m) as Hdm.
    pose proof (Nat.mod_upper_bound (length items) m). nia.
Qed.

Lemma chunks_below_limit_spec_witness :
  ∃ chunks,
    chunks_below_limit [1; 2; 3; 4; 5; 6; 7] 3%Z = Some chunks
    ∧ length chunks = 7 / Z.to_nat 3 + 1
    ∧ concat chunks ≡ₚ [1; 2; 3; 4; 5; 6; 7]
    ∧ Forall (λ chunk, length chunk ≤ Z.to_nat 3) chunks.
Proof. apply (chunks_below_limit_spec [1; 2; 3; 4; 5; 6; 7] 3). lia. Defined.

(** X15.  [chunks_below_limit] fails on [limit = 0] (the division by zero),
    and on a negative [limit] it returns no chunk at all for a list that is
    not empty: the items are dropped. *)
Theorem chunks_below_limit_edges {A} (items : list A) :
  chunks_below_limit items 0 = None
  ∧ ∀ limit, (limit < 0)%Z → items ≠ [] →
             chunks_below_limit items limit = Some [].
Proof.
  split; [done|]. intros limit Hneg Hne. unfold chunks_below_limit.
  destruct (Z.eqb_spec limit 0) as [|_]; [lia|]. cbv zeta. f_equal.
  unfold n_chunks, range.
  assert (0 < length items) as Hlen by (destruct items; [done | simpl; lia]).
  assert (Z.of_nat (length items) / limit + 1 ≤ 0)%Z as Hq.
  { pose proof (Z.div_mod (Z.of_nat (length items)) limit ltac:(lia)).
    pose proof (Z.mod_neg_bound (Z.of_nat (length items)) limit Hneg). nia. }
  by replace (Z.to_nat (Z.of_nat (length items) / limit + 1)) with 0 by lia.
Qed.

Lemma chunks_below_limit_edges_witness :
  chunks_below_limit [1; 2; 3] (-2)%Z = Some [].
Proof. apply (proj2 (chunks_below_limit_edges [1; 2; 3])); [lia | done]. Defined.

(** ** [split] and [join] *)

Lemma lacks_cons c d s : lacks c (String d s) ↔ d ≠ c ∧ lacks c s.
Proof.
  unfold lacks. cbn [all_chars]. rewrite andb_true_iff, negb_true_iff.
  by rewrite Ascii.eqb_neq.
Qed.

Lemma lacks_dec c s : {lacks c s} + {¬ lacks c s}.
Proof. unfold lacks. destruct (all_chars _ s); [by left | by right]. Qed.

Lemma split_cases sep s : ∃ item items, split sep s = item :: items.
Proof.
  destruct s as [|c s]; cbn [split]; [by eexists _, _|].
  destruct (Ascii.eqb c sep); [by eexists _, _|].
  destruct (split sep s); by eexists _, _.
Qed.

Lemma split_cons_sep sep s : split sep (String sep s) = "" :: split sep s.
Proof. cbn [split]. by rewrite Ascii.eqb_refl. Qed.

Lemma split_cons_other sep c s item items :
  c ≠ sep → split sep s = item :: items →
  split sep (String c s) = String c item :: items.
Proof.
  intros Hc Hs. cbn [split]. rewrite Hs.
  by rewrite (proj2 (Ascii.eqb_neq c sep) Hc).
Qed.

Lemma join_cons sep item item' items :
  join sep (item :: item' :: items) = item +:+ sep +:+ join sep (item' :: items).
Proof. done. Qed.

Lemma join_split sep s : join (String sep "") (split sep s) = s.
Proof.
  induction s as [|c s IH]; [done|].
  destruct (split_cases sep s) as (item & items & Hs). rewrite Hs in IH.
  destruct (decide (c = sep)) as [->|Hc].
  - rewrite split_cons_sep, Hs, join_cons, IH. done.
  - rewrite (split_cons_other sep c s item items Hc Hs).
    destruct items as [|item' items]; cbn [join] in *; [by rewrite IH|].
    by rewrite <- IH.
Qed.

Lemma split_lacks sep s : lacks sep s → split sep s = [s].
Proof.
  induction s as [|c s IH]; [done|].
  intros [Hc Hs]%lacks_cons.
  by rewrite (split_cons_other sep c s s [] Hc (IH Hs)).
Qed.

Lemma split_head_lacks sep s item items :
  split sep s = item :: items → lacks sep item.
Proof.
  revert item items. induction s as [|c s IH]; intros item items.
  { by intros [= <- <-]. }
  destruct (split_cases sep s) as (item' & items' & Hs).
  destruct (decide (c = sep)) as [->|Hc].
  - rewrite split_cons_sep. by intros [= <- <-].
  - rewrite (split_cons_other sep c s item' items' Hc Hs).
    intros [= <- <-]. apply lacks_cons. split; [done|]. by eapply IH.
Qed.

Lemma split_single_lacks sep s item : split sep s = [item] → lacks sep s.
Proof.
  intros Hs. pose proof (join_split sep s) as Hj. rewrite Hs in Hj.
  cbn [join] in Hj. subst item. by eapply split_head_lacks.
Qed.

Lemma split_app sep k v :
  lacks sep k → split sep (k +:+ String sep v) = k :: split sep v.
Proof.
  induction k as [|c k IH]; cbn [String.append].
  - intros _. apply split_cons_sep.
  - intros [Hc Hk]%lacks_cons.
    by apply split_cons_other, IH.
Qed.

(** ** [parse_kv_pair] *)

(** X16.  [parse_kv_pair] raises exactly on the strings that have no [=]. *)
Theorem parse_kv_pair_error (s : string) :
  parse_kv_pair s = None ↔ lacks "=" s.
Proof.
  unfold parse_kv_pair. cbv zeta. split.
  - destruct (split_cases "=" s) as (item & [|item' items] & Hs);
      rewrite Hs; cbn [length Nat.leb]; [|done].
    intros _. by eapply split_single_lacks.
  - intros Hs. by rewrite (split_lacks _ _ Hs).
Qed.

(** X17.  [parse_kv_pair] returns [(k, v)] exactly when the string is
    [k0 + "=" + v] for some [k0] without [=] whose stripped form is [k]: the
    string is cut at its first [=], and the value keeps any later [=]. *)
Theorem parse_kv_pair_spec (s k v : string) :
  parse_kv_pair s = Some (k, v)
  ↔ ∃ k0, lacks "=" k0 ∧ s = k0 +:+ "=" +:+ v ∧ k = strip k0.
Proof.
  unfold parse_kv_pair. cbv zeta. split.
  - destruct (split_cases "=" s) as (item & [|item' items] & Hs);
      rewrite Hs; cbn [length Nat.leb nth drop]; [done|].
    intros [= <- <-]. exists item. split; [by eapply split_head_lacks|].
    split; [|done]. rewrite <- (join_split "=" s) at 1. by rewrite Hs.
  - intros (k0 & Hk0 & -> & ->).
    change (k0 +:+ "=" +:+ v) with (k0 +:+ String "=" v).
    rewrite (split_app _ _ _ Hk0).
    destruct (split_cases "=" v) as (item & items & Hv). rewrite Hv.
    cbn [length Nat.leb nth drop]. by rewrite <- Hv, join_split.
Qed.

Example parse_kv_pair_example :
  parse_kv_pair " foo =hello=world" = Some ("foo", "hello=world")
  ∧ parse_kv_pair "foo" = None
  ∧ parse_kv_pair "=" = Some ("", "").
Proof. done. Qed.

(** ** Paths and modules *)

Lemma replace_char_cons a b c s :
  replace (String a "") (String b "") (String c s)
  = String (if Ascii.eqb c a then b else c)
           (replace (String a "") (String b "") s).
Proof.
  unfold replace. cbn [replace_from String.prefix String.length Nat.sub].
  destruct (ascii_dec a c) as [->|Hne].
  - rewrite Ascii.eqb_refl. by destruct s.
  - by rewrite (proj2 (Ascii.eqb_neq c a)) by congruence.
Qed.

Lemma replace_char_lacks a b s :
  a ≠ b → lacks a (replace (String a "") (String b "") s).
Proof.
  intros Hab. induction s as [|c s IH]; [done|].
  rewrite replace_char_cons. apply lacks_cons. split; [|done].
  destruct (Ascii.eqb_spec c a); congruence.
Qed.

Lemma replace_char_id a b s :
  lacks a s → replace (String a "") (String b "") s = s.
Proof.
  induction s as [|c s IH]; [done|]. intros [Hc Hs]%lacks_cons.
  rewrite replace_char_cons, IH by done.
  by rewrite (proj2 (Ascii.eqb_neq c a)).
Qed.

Lemma replace_char_back a b s :
  lacks b s →
  replace (String b "") (String a "") (replace (String a "") (String b "") s) = s.
Proof.
  induction s as [|c s IH]; [done|]. intros [Hc Hs]%lacks_cons.
  rewrite !replace_char_cons, IH by done. f_equal.
  destruct (Ascii.eqb_spec c a) as [->|Hca].
  - by rewrite Ascii.eqb_refl.
  - by rewrite (proj2 (Ascii.eqb_neq c b)).
Qed.

Lemma replace_py_suffix s :
  lacks "." s → replace ".py" "" (s +:+ ".py") = s.
Proof.
  induction s as [|c s IH]; [done|]. intros [Hc Hs]%lacks_cons.
  unfold replace in *.
  change (String c s +:+ ".py") with (String c (s +:+ ".py")).
  cbn [replace_from String.prefix].
  destruct (ascii_dec "." c) as [<-|_]; [done|]. by rewrite IH.
Qed.

(** X18.  The result of [path_to_module] has no [/]. *)
Theorem path_to_module_no_slash (path_str : string) :
  lacks "/" (path_to_module path_str).
Proof. unfold path_to_module. by apply replace_char_lacks. Qed.

(** X19.  For a module name that has no [/] and from which removing [.py]
    removes nothing, [module_to_path] writes the dots as slashes and adds
    [.py], and [path_to_module] gives the module name back. *)
Theorem path_to_module_to_path (module_name : string) :
  lacks "/" module_name →
  replace ".py" "" module_name = module_name →
  module_to_path module_name = replace "." "/" module_name +:+ ".py"
  ∧ path_to_module (module_to_path module_name) = module_name.
Proof.
  intros Hslash Hpy.
  assert (path_to_module module_name = module_name) as Hfix.
  { unfold path_to_module. rewrite Hpy. by apply replace_char_id. }
  assert (module_to_path module_name
          = replace "." "/" module_name +:+ ".py") as Hpath.
  { unfold module_to_path. by rewrite Hfix. }
  split; [done|]. rewrite Hpath. unfold path_to_module.
  rewrite replace_py_suffix by by apply replace_char_lacks.
  by apply replace_char_back.
Qed.

Lemma path_to_module_to_path_witness :
  module_to_path "trainer.task" = replace "." "/" "trainer.task" +:+ ".py"
  ∧ path_to_module (module_to_path "trainer.task") = "trainer.task".
Proof. apply path_to_module_to_path; reflexivity. Defined.

Example module_to_path_loses_py :
  path_to_module "a/pyx.py" = "a.pyx" ∧ module_to_path "a.pyx" = "ax.py".
Proof. done. Qed.

(** X20.  [generate_package] keeps [path_to_module(path)] as the main
    module; the package path is [.] when the module name has no dot, and
    otherwise the part of the module name before its first dot. *)
Theorem generate_package_spec (path : string) :
  main_module (generate_package path) = path_to_module path
  ∧ (lacks "." (path_to_module path) →
     package_path (generate_package path) = ".")
  ∧ (¬ lacks "." (path_to_module path) →
     lacks "." (package_path (generate_package path))
     ∧ ∃ rest, path_to_module path
               = package_path (generate_package path) +:+ "." +:+ rest).
Proof.
  unfold generate_package. cbv zeta. cbn [main_module package_path].
  split; [done|]. split.
  - intros Hl. by rewrite (split_lacks _ _ Hl).
  - intros Hl.
    destruct (split_cases "." (path_to_module path)) as (item & items & Hs).
    rewrite Hs. destruct items as [|item' items].
    { destruct Hl. by eapply split_single_lacks. }
    cbn [length Nat.eqb nth]. split; [by eapply split_head_lacks|].
    exists (join "." (item' :: items)).
    rewrite <- (join_split "." (path_to_module path)) at 1. by rewrite Hs.
Qed.

Lemma generate_package_spec_witness :
  package_path (generate_package "bar.py") = ".".
Proof. apply (proj1 (proj2 (generate_package_spec "bar.py"))). reflexivity. Defined.

(** ** More on [dict_product] *)

Lemma dict_cons_fresh {K V} `{Countable K} (k : K) (x : V) (pairs : list (K * V)) :
  k ∉ pairs.*1 → dict ((k, x) :: pairs) = <[k := x]> (dict pairs).
Proof.
  induction pairs as [|[k' x'] pairs IH] using rev_ind; intros Hfresh; [done|].
  rewrite fmap_app, not_elem_of_app in Hfresh. destruct Hfresh as [Hpairs Hk'].
  rewrite app_comm_cons, !dict_snoc, IH by done.
  apply insert_insert_ne. intros ->. apply Hk'. simpl. left.
Qed.

Lemma elem_of_dict_product {K A} `{Countable K} (m : list (K * value A)) d :
  d ∈ dict_product m
  ↔ ∃ x, d = dict (zip m.*1 x)
         ∧ Forall2 (λ xi xs, xi ∈ xs) x ((λ kv, wrap_v kv.2) <$> m).
Proof.
  rewrite dict_product_unfold, list_elem_of_fmap.
  split; intros (x & Hd & Hx); exists x; split; try done;
    by apply elem_of_product.
Qed.

(** X21.  Every dict that has the keys of [m] and binds each key to one item
    of that key's wrapped value is among the dicts that [dict_product]
    yields. *)
Theorem dict_product_complete {K A} `{Countable K}
    (m : list (K * value A)) (d : gmap K (value A)) :
  NoDup m.*1 →
  dom d = list_to_set m.*1 →
  (∀ k v, (k, v) ∈ m → ∃ x, d !! k = Some x ∧ x ∈ wrap_v v) →
  d ∈ dict_product m.
Proof.
  intros Hnd Hdom Hpick. apply elem_of_dict_product. revert d Hnd Hdom Hpick.
  induction m as [|[k v] m IH]; intros d Hnd Hdom Hpick.
  - exists []. split; [|constructor].
    apply dom_empty_iff_L. by rewrite Hdom.
  - apply NoDup_cons in Hnd as [Hk Hnd]. cbn [fmap list_fmap fst] in *.
    destruct (Hpick k v) as (x0 & Hx0 & Hin0); [left|].
    destruct (IH (delete k d)) as (xs & Hd' & Hxs); [done| | |].
    + rewrite dom_delete_L, Hdom. cbn [list_to_set foldr]. set_solver.
    + intros k' v' Hin'. destruct (Hpick k' v') as (x' & Hx' & Hin''); [by right|].
      exists x'. split; [|done]. rewrite lookup_delete_ne; [done|].
      intros ->. apply Hk. apply list_elem_of_fmap. by exists (k', v').
    + exists (x0 :: xs). split; [|by constructor].
      cbn [zip zip_with]. rewrite dict_cons_fresh.
      * fold (zip m.*1 xs). rewrite <- Hd', insert_delete_id; done.
      * intros Hin. apply Hk. apply list_elem_of_fmap in Hin as ([k' x'] & -> & Hin).
        apply elem_of_zip_l in Hin. done.
Qed.

Lemma dict_product_complete_witness :
  ({[ "a" := Atom 2%Z; "b" := Atom 3%Z ]} : gmap string (value Z))
  ∈ dict_product [("a", PyList [Atom 1%Z; Atom 2%Z]); ("b", Atom 3%Z)].
Proof.
  apply dict_product_complete.
  - simpl. apply NoDup_cons. split; [|apply NoDup_singleton].
    intros Hin. apply list_elem_of_singleton in Hin. discriminate.
  - by vm_compute.
  - intros k v Hin. apply elem_of_cons in Hin as [[= -> ->]|Hin].
    { exists (Atom 2%Z). split; [by vm_compute|]. simpl. right. left. }
    apply list_elem_of_singleton in Hin as [= -> ->].
    exists (Atom 3%Z). split; [by vm_compute|]. simpl. left.
Defined.

Lemma product_singletons {X} (l : list X) : product ((λ x, [x]) <$> l) = [l].
Proof.
  induction l as [|x l IH]; [done|].
  cbn [fmap list_fmap product]. change (list_fmap X (list X) (λ x, [x]) l)
    with ((λ x, [x]) <$> l). rewrite IH. done.
Qed.

(** X22.  When no value of [m] is a list, [dict_product] yields one dict,
    made of the items of [m]. *)
Theorem dict_product_scalars {K A} `{Countable K} (m : list (K * value A)) :
  Forall (λ kv, ∀ items, kv.2 ≠ PyList items) m →
  dict_product m = [dict m].
Proof.
  intros Hscalar. rewrite dict_product_unfold.
  assert ((λ kv : K * value A, wrap_v kv.2) <$> m = (λ x, [x]) <$> m.*2) as ->.
  { rewrite <- list_fmap_compose. apply list_fmap_ext. intros i [k v] Hi.
    rewrite Forall_forall in Hscalar.
    assert ((k, v) ∈ m) as Hin by (apply list_elem_of_lookup; eauto).
    specialize (Hscalar _ Hin). simpl in *. destruct v as [a|items]; [done|].
    by destruct (Hscalar items). }
  rewrite product_singletons. cbn [fmap list_fmap]. by rewrite zip_fst_snd.
Qed.

Lemma dict_product_scalars_witness :
  dict_product [("a", Atom 1%Z); ("b", Atom 3%Z)]
  = [dict [("a", Atom 1%Z); ("b", Atom 3%Z)]].
Proof.
  apply dict_product_scalars. repeat constructor; simpl; intros items; discriminate.
Defined.

(** ** More on the table shuffles *)

(** X23.  [flipm] transposes: [flipm(table)[k2][k]] is [table[k][k2]], no
    inner dict of the result is empty, and flipping three times is flipping
    once, on every table. *)
Theorem flipm_transpose {K1 K2 V} `{Countable K1} `{Countable K2}
    (table : gmap K1 (gmap K2 V)) :
  (∀ k k2, cell (flipm table) k2 k = cell table k k2)
  ∧ no_empty_rows (flipm table)
  ∧ flipm (flipm (flipm table)) = flipm table.
Proof.
  split; [|split].
  - intros k k2. apply cell_flipm.
  - apply flipm_no_empty.
  - apply table_ext; try apply flipm_no_empty.
    intros k2 k. by rewrite !cell_flipm.
Qed.

Section reorder_errors.
Context {A : Type} `{Countable A}.
Implicit Types (ret : gmap A (gmap A (gset A))) (order : Z * Z * Z).

Lemma getitem_invalid (k k2 v : A) i :
  ¬ valid_index i → getitem [k; k2; v] i = Raise IndexError.
Proof.
  unfold valid_index, getitem. intros Hi. cbn [length].
  destruct (Z.ltb_spec i 0).
  - destruct (Z.leb_spec 0 (Z.of_nat 3 + i)); [lia|done].
  - destruct (Z.leb_spec 0 i); [|lia].
    destruct (Z.ltb_spec i (Z.of_nat 3)); [lia|done].
Qed.

Lemma getitem_cases (k k2 v : A) i :
  (∃ y, getitem [k; k2; v] i = Ok y) ∨ getitem [k; k2; v] i = Raise IndexError.
Proof.
  destruct (decide (valid_index i)) as [Hi|Hi].
  - left. by apply getitem_fields.
  - right. by apply getitem_invalid.
Qed.

Lemma reorderm_cell_invalid order (k k2 v : A) ret :
  ¬ (valid_index order.1.1 ∧ valid_index order.1.2 ∧ valid_index order.2) →
  reorderm_cell order k k2 v ret = Raise IndexError.
Proof.
  intros Hbad. unfold reorderm_cell.
  destruct (decide (valid_index order.1.1)) as [H0|H0];
    [|by rewrite getitem_invalid].
  destruct (getitem_fields k k2 v _ H0) as [f0 ->]. cbn [bind].
  destruct (setdefault f0 ∅ ret) as [innerm ret1].
  destruct (decide (valid_index order.1.2)) as [H1|H1];
    [|by rewrite getitem_invalid].
  destruct (getitem_fields k k2 v _ H1) as [f1 ->]. cbn [bind].
  destruct (setdefault f1 ∅ innerm) as [acc innerm1].
  rewrite getitem_invalid; [done|]. intros H2. by apply Hbad.
Qed.

Lemma foldl_raised order (k k2 : A) vs e :
  foldl (λ r v, let* ret := r in reorderm_cell order k k2 v ret)
        (Raise e) vs = Raise e.
Proof. induction vs as [|v vs IH]; [done|]. cbn [foldl bind]. apply IH. Qed.

Lemma reorderm_values_invalid order (k k2 : A) vs ret :
  ¬ (valid_index order.1.1 ∧ valid_index order.1.2 ∧ valid_index order.2) →
  vs ≠ [] →
  foldl (λ r v, let* ret := r in reorderm_cell order k k2 v ret)
        (Ok ret) vs = Raise IndexError.
Proof.
  intros Hbad Hvs. destruct vs as [|v vs]; [done|]. cbn [foldl bind].
  rewrite reorderm_cell_invalid by done. apply foldl_raised.
Qed.

(** The state of the loops of [reorderm] over a part [seen] of the rows: it
    has raised, or no value was met yet. *)
Lemma reorderm_row_invalid order (k : A) (m : gmap A (list A)) r :
  ¬ (valid_index order.1.1 ∧ valid_index order.1.2 ∧ valid_index order.2) →
  let r' :=
    map_fold
      (λ k2 vs r,
         foldl (λ r v, let* ret := r in reorderm_cell order k k2 v ret) r vs)
      r m in
  (r = Raise IndexError → r' = Raise IndexError)
  ∧ (∀ ret, r = Ok ret →
       ((∀ k2 vs, m !! k2 = Some vs → vs = []) ∧ r' = Ok ret)
       ∨ ((∃ k2 vs v, m !! k2 = Some vs ∧ v ∈ vs) ∧ r' = Raise IndexError)).
Proof.
  intros Hbad. cbv zeta.
  apply (map_fold_weak_ind (λ r' (m : gmap A (list A)),
    (r = Raise IndexError → r' = Raise IndexError)
    ∧ (∀ ret, r = Ok ret →
         ((∀ k2 vs, m !! k2 = Some vs → vs = []) ∧ r' = Ok ret)
         ∨ ((∃ k2 vs v, m !! k2 = Some vs ∧ v ∈ vs) ∧ r' = Raise IndexError)))).
  { split; [done|]. intros ret ->. left. split; [|done].
    intros k2 vs Hm. by rewrite lookup_empty in Hm. }
  clear m. intros k2 vs m r' Hfresh [IHraise IHok]. split.
  - intros Hr. rewrite (IHraise Hr). apply foldl_raised.
  - intros ret Hr. destruct (IHok ret Hr) as [[Hnone ->]|[Hsome ->]].
    + destruct vs as [|v vs].
      * left. split; [|done]. intros k2' vs'.
        rewrite lookup_insert_Some. intros [[_ <-]|[_ Hm]]; [done|]. by eapply Hnone.
      * right. split; [|by apply reorderm_values_invalid].
        exists k2, (v :: vs), v. rewrite lookup_insert_eq. split; [done|left].
    + right. split; [|apply foldl_raised].
      destruct Hsome as (k2' & vs' & v & Hm & Hv). exists k2', vs', v.
      split; [|done]. rewrite lookup_insert_ne; [done|]. intros ->. congruence.
Qed.

Lemma reorderm_invalid (table : gmap A (gmap A (list A))) order :
  ¬ (valid_index order.1.1 ∧ valid_index order.1.2 ∧ valid_index order.2) →
  ((∀ k m k2 vs, table !! k = Some m → m !! k2 = Some vs → vs = [])
   ∧ reorderm table order = Ok ∅)
  ∨ ((∃ k m k2 vs v, table !! k = Some m ∧ m !! k2 = Some vs ∧ v ∈ vs)
     ∧ reorderm table order = Raise IndexError).
Proof.
  intros Hbad. unfold reorderm.
  apply (map_fold_weak_ind (λ r (t : gmap A (gmap A (list A))),
    ((∀ k m k2 vs, t !! k = Some m → m !! k2 = Some vs → vs = []) ∧ r = Ok ∅)
    ∨ ((∃ k m k2 vs v, t !! k = Some m ∧ m !! k2 = Some vs ∧ v ∈ vs)
       ∧ r = Raise IndexError))).
  { left. split; [|done]. intros k m k2 vs Ht. by rewrite lookup_empty in Ht. }
  clear table. intros k m table r Hfresh IH.
  destruct (reorderm_row_invalid order k m r Hbad) as [Hraise Hok].
  destruct IH as [[Hnone ->]|[Hsome ->]].
  - destruct (Hok ∅ eq_refl) as [[Hm ->]|[Hm ->]].
    + left. split; [|done]. intros k' m' k2 vs.
      rewrite lookup_insert_Some. intros [[_ <-]|[_ Ht]] Hm'.
      * by eapply Hm.
      * by eapply Hnone.
    + right. split; [|done]. destruct Hm as (k2 & vs & v & Hm & Hv).
      exists k, m, k2, vs, v. by rewrite lookup_insert_eq.
  - right. split; [|by apply Hraise].
    destruct Hsome as (k' & m' & k2 & vs & v & Ht & Hm & Hv).
    exists k', m', k2, vs, v. split; [|done].
    rewrite lookup_insert_ne; [done|]. intros ->. congruence.
Qed.
End reorder_errors.

(** X24.  [reorderm] takes Python indices: with each entry of [order]
    between [-3] and [2], a permutation or not, it returns, and [x] is in
    [ret[a][b]] exactly for the regrouped triples of the table. *)
Theorem reorderm_valid_indices {A} `{Countable A}
    (table : gmap A (gmap A (list A))) (order : Z * Z * Z) :
  valid_index order.1.1 → valid_index order.1.2 → valid_index order.2 →
  ∃ ret,
    reorderm table order = Ok ret
    ∧ ∀ a b x,
        leaf_elem ret a b x
        ↔ ∃ k1 m k2 vs v,
            table !! k1 = Some m ∧ m !! k2 = Some vs ∧ v ∈ vs
            ∧ regrouped order k1 k2 v a b x.
Proof. apply reorderm_table. Qed.

Lemma reorderm_valid_indices_witness :
  ∃ ret,
    reorderm ({[ "x" := {[ "p" := ["u"; "v"] ]} ]}
                : gmap string (gmap string (list string))) (-1, -1, 0)%Z
    = Ok ret
    ∧ ∀ a b x,
        leaf_elem ret a b x
        ↔ ∃ k1 m k2 vs v,
            ({[ "x" := {[ "p" := ["u"; "v"] ]} ]}
               : gmap string (gmap string (list string))) !! k1 = Some m
            ∧ m !! k2 = Some vs ∧ v ∈ vs
            ∧ regrouped (-1, -1, 0)%Z k1 k2 v a b x.
Proof. apply reorderm_valid_indices; unfold valid_index; simpl; lia. Defined.

(** X25.  With an entry of [order] outside [-3 .. 2], [reorderm] raises
    [IndexError] as soon as the table holds one value, and returns the
    empty dict when it holds none. *)
Theorem reorderm_index_error {A} `{Countable A}
    (table : gmap A (gmap A (list A))) (order : Z * Z * Z) :
  ¬ (valid_index order.1.1 ∧ valid_index order.1.2 ∧ valid_index order.2) →
  ((∃ k m k2 vs v, table !! k = Some m ∧ m !! k2 = Some vs ∧ v ∈ vs) →
   reorderm table order = Raise IndexError)
  ∧ ((∀ k m k2 vs, table !! k = Some m → m !! k2 = Some vs → vs = []) →
     reorderm table order = Ok ∅).
Proof.
  intros Hbad.
  destruct (reorderm_invalid table order Hbad) as [[Hnone Hr]|[Hsome Hr]].
  - split; [|done]. intros (k & m & k2 & vs & v & Ht & Hm & Hv).
    rewrite (Hnone k m k2 vs Ht Hm) in Hv. by apply elem_of_nil in Hv.
  - split; [done|]. intros Hnone.
    destruct Hsome as (k & m & k2 & vs & v & Ht & Hm & Hv).
    rewrite (Hnone k m k2 vs Ht Hm) in Hv. by apply elem_of_nil in Hv.
Qed.

Lemma reorderm_index_error_witness :
  reorderm ({[ "x" := {[ "p" := ["u"] ]} ]}
              : gmap string (gmap string (list string))) (0, 1, 3)%Z
  = Raise IndexError.
Proof.
  apply reorderm_index_error.
  - unfold valid_index. simpl. lia.
  - exists "x", {[ "p" := ["u"] ]}, "p", ["u"], "u".
    split; [by vm_compute|]. split; [by vm_compute|]. left.
Defined.

(** ** [strip] and [_truncate] *)

Lemma lstrip_space_first s c :
  first_char (lstrip_space s) = Some c → isspace_char c = false.
Proof.
  induction s as [|d s IH]; [done|]. cbn [lstrip_space].
  destruct (isspace_char d) eqn:Hd; [done|]. by intros [= <-].
Qed.

Lemma rstrip_space_first s c :
  first_char (rstrip_space s) = Some c → first_char s = Some c.
Proof.
  destruct s as [|d s]; [done|]. cbn [rstrip_space].
  destruct (rstrip_space s); [|done]. by destruct (isspace_char d).
Qed.

Lemma last_char_None s : last_char s = None → s = "".
Proof. destruct s as [|c s]; [done|]. cbn [last_char]. by destruct (last_char s). Qed.

Lemma rstrip_space_last s c :
  last_char (rstrip_space s) = Some c → isspace_char c = false.
Proof.
  induction s as [|d s IH]; [done|]. cbn [rstrip_space].
  destruct (rstrip_space s) as [|e r] eqn:Hr.
  - destruct (isspace_char d) eqn:Hd; [done|]. by intros [= <-].
  - cbn [last_char] in *. destruct (last_char r) as [l|]; [done|].
    intros [= <-]. by apply IH.
Qed.

Lemma lstrip_space_id s :
  (∀ c, first_char s = Some c → isspace_char c = false) → lstrip_space s = s.
Proof.
  destruct s as [|d s]; [done|]. intros Hd. cbn [lstrip_space].
  by rewrite (Hd d eq_refl).
Qed.

Lemma rstrip_space_id s :
  (∀ c, last_char s = Some c → isspace_char c = false) → rstrip_space s = s.
Proof.
  induction s as [|d s IH]; [done|]. cbn [rstrip_space last_char]. intros Hl.
  destruct (last_char s) as [l|] eqn:Hs.
  - rewrite IH by (intros c [= <-]; by apply Hl).
    destruct s; [done|done].
  - apply last_char_None in Hs as ->. cbn [rstrip_space].
    by rewrite (Hl d eq_refl).
Qed.

(** X26.  [strip] leaves no white space at either end and is idempotent, so
    the key that [parse_kv_pair] returns neither starts nor ends with white
    space. *)
Theorem strip_spec :
  (∀ s c, first_char (strip s) = Some c → isspace_char c = false)
  ∧ (∀ s c, last_char (strip s) = Some c → isspace_char c = false)
  ∧ (∀ s, strip (strip s) = strip s)
  ∧ (∀ s k v c, parse_kv_pair s = Some (k, v) →
                (first_char k = Some c ∨ last_char k = Some c) →
                isspace_char c = false).
Proof.
  assert (∀ s c, first_char (strip s) = Some c → isspace_char c = false)
    as Hfirst.
  { intros s c Hc. apply rstrip_space_first in Hc. by eapply lstrip_space_first. }
  assert (∀ s c, last_char (strip s) = Some c → isspace_char c = false)
    as Hlast.
  { intros s c. apply rstrip_space_last. }
  split; [done|]. split; [done|]. split.
  - intros s. unfold strip at 1.
    rewrite lstrip_space_id by apply Hfirst. apply rstrip_space_id, Hlast.
  - intros s k v c Hs Hc. unfold parse_kv_pair in Hs. cbv zeta in Hs.
    destruct (length (split "=" s) <=? 1); [done|].
    injection Hs as <- _. destruct Hc; [by eapply Hfirst | by eapply Hlast].
Qed.

Lemma strip_spec_witness : isspace_char "f"%char = false.
Proof.
  apply (proj2 (proj2 (proj2 strip_spec)) " foo =bar" "foo" "bar" "f"%char).
  - reflexivity.
  - by left.
Defined.



